(** * Sup Chat channel plugin (src/index.ts): a shallow embedding

    The plugin is TypeScript running on a single-threaded JavaScript host.
    It is embedded as follows.

    - Values decoded from the remote service are untyped ([any] in the
      source), so they are modelled as JSON trees ([json]) and every
      property access, truthiness test, iteration and method call the
      source performs on them is written out with its JavaScript
      behaviour, including the [TypeError]s it can raise.
    - Code that can throw and that mutates the seen-set, the host context
      or the timers runs in a small state-and-exception monad [js] over a
      [World]; the world also records, in order, every call the plugin
      makes to its collaborators (logger, file system, fetch, event sink,
      timers, host context).
    - Answers of the collaborators (file contents, HTTP outcomes, timer
      handles, the clock, whether the event sink throws) are inputs. *)

From Stdlib Require Import ZArith Ascii String List Bool Lia.
From stdpp Require Import gmap strings list pretty.

Open Scope string_scope.
Open Scope list_scope.
Set Warnings "-register-all".

(** ** JavaScript values *)

(** The result of [JSON.parse].  Numbers are only ever tested for
    truthiness and identity by the plugin, so integers stand for them.
    [JObj] lists the members in the order of the JSON text; on a repeated
    key the last member wins, as in [JSON.parse]. *)
Inductive json : Type :=
| JNull
| JBool (b : bool)
| JNum (n : Z)
| JStr (s : string)
| JArr (items : list json)
| JObj (members : list (string * json)).

(** A JavaScript value met by the plugin: [None] is [undefined]. *)
Definition jsval : Type := option json.

(** What a [throw] carries; [message] is [error.message]. *)
Inductive exn : Type :=
| TypeError (msg : string)
| SyntaxError (msg : string)
| Error (msg : string).

Definition message (e : exn) : string :=
  match e with TypeError m | SyntaxError m | Error m => m end.

Inductive completion (A : Type) : Type :=
| Normal (a : A)
| Throw (e : exn).
Arguments Normal {A} a.
Arguments Throw {A} e.

(** ToBoolean. *)
Definition truthy (v : jsval) : bool :=
  match v with
  | None | Some JNull => false
  | Some (JBool b) => b
  | Some (JNum n) => negb (n =? 0)%Z
  | Some (JStr s) => negb (String.eqb s "")
  | Some (JArr _) | Some (JObj _) => true
  end.

(** Own property of a parsed object: the last member with that key. *)
Fixpoint own_property (members : list (string * json)) (key : string) : jsval :=
  match members with
  | [] => None
  | (k, v) :: rest =>
      match own_property rest key with
      | Some later => Some later
      | None => if String.eqb k key then Some v else None
      end
  end.

(** [v.key] for the keys the plugin reads ([result], [data], [chats],
    [messages], [id], [type], [mentions], [senderId], [content]): none of
    them is on a built-in prototype, so primitives and arrays give
    [undefined]; [undefined] and [null] throw. *)
Definition get (v : jsval) (key : string) : completion jsval :=
  match v with
  | None => Throw (TypeError ("Cannot read properties of undefined (reading '" +:+ key +:+ "')"))
  | Some JNull => Throw (TypeError ("Cannot read properties of null (reading '" +:+ key +:+ "')"))
  | Some (JObj members) => Normal (own_property members key)
  | Some _ => Normal None
  end.

(** [v?.key]: short-circuits to [undefined] on [undefined] and [null]. *)
Definition get_opt (v : jsval) (key : string) : jsval :=
  match v with
  | Some (JObj members) => own_property members key
  | _ => None
  end.

(** The values a [for (... of expr)] visits, [v] being the value of
    [expr]: the items of an array, the characters of a string; anything
    else is not iterable, and the error names the expression. *)
Definition iterate (expr : string) (v : jsval) : completion (list json) :=
  match v with
  | Some (JArr items) => Normal items
  | Some (JStr s) => Normal (map (fun c => JStr (String c "")) (list_ascii_of_string s))
  | _ => Throw (TypeError (expr +:+ " is not iterable"))
  end.

(** SameValueZero, the equality of [Set.prototype.has] and
    [Array.prototype.includes].  Arrays and objects compare by reference,
    and every [JSON.parse] builds fresh ones, so two of them met by the
    plugin are never the same value. *)
Definition same_value_zero (a b : jsval) : bool :=
  match a, b with
  | None, None => true
  | Some JNull, Some JNull => true
  | Some (JBool x), Some (JBool y) => Bool.eqb x y
  | Some (JNum x), Some (JNum y) => (x =? y)%Z
  | Some (JStr x), Some (JStr y) => String.eqb x y
  | _, _ => false
  end.

Definition is_primitive (v : jsval) : bool :=
  match v with
  | Some (JArr _) | Some (JObj _) => false
  | _ => true
  end.

(** [chat.type === "direct"]. *)
Definition is_direct (ty : jsval) : bool :=
  match ty with
  | Some (JStr s) => String.eqb s "direct"
  | _ => false
  end.

(** [hay.includes(needle)] on strings. *)
Definition string_includes (hay needle : string) : bool :=
  match String.index 0 needle hay with
  | Some _ => true
  | None => false
  end.

(** [mentions?.includes(botUserId)], as a truth value ([undefined] is
    falsy).  [botUserId] is the configured identity: a string, or
    [undefined] when not configured.  On an array this is membership; on
    a string it is [String.prototype.includes], a substring test against
    [String(botUserId)]; [undefined] and [null] short-circuit; any other
    receiver has no callable [includes]. *)
Definition includes_opt (mentions : jsval) (botUserId : option string) : completion bool :=
  match mentions with
  | None | Some JNull => Normal false
  | Some (JArr items) =>
      Normal (existsb (fun item => same_value_zero (Some item) (JStr <$> botUserId)) items)
  | Some (JStr s) =>
      Normal (string_includes s (default "undefined" botUserId))
  | Some _ => Throw (TypeError "msg.mentions?.includes is not a function")
  end.

(** ** Configuration, requests, events *)

Record SupChatConfig : Type := {
  baseUrl : string;
  authSessionPath : string;
  clientVersion : option string;
  sessionId : option string;
  pollInterval : option Z;
  enabled : option bool
}.

(** [api.config]: the block [channels?.["sup-chat"]] and [botUserId]. *)
Record ApiConfig : Type := {
  channels_sup_chat : option SupChatConfig;
  botUserId : option string
}.

Record ChatContext : Type := {
  ctx_chatId : string;
  ctx_senderId : string;
  ctx_text : string;
  ctx_messageId : option string
}.

(** [RequestInit] as the plugin fills it.  [body] holds the value whose
    [JSON.stringify] text is sent. *)
Record RequestInit : Type := {
  method : option string;
  body : option json;
  headers : gmap string string
}.

Definition no_options : RequestInit :=
  {| method := None; body := None; headers := ∅ |}.

Record Request : Type := {
  url : string;
  init : RequestInit
}.

(** The argument of [api.emit("message", ...)]. *)
Record SyncEvent : Type := {
  ev_channel : string;
  ev_chatId : jsval;
  ev_messageId : jsval;
  ev_senderId : jsval;
  ev_text : jsval;
  ev_isDM : bool;
  ev_mentions : jsval
}.

(** What [fetch] followed by [response.json()] can do. *)
Inductive HttpOutcome : Type :=
| NetworkFailure (e : exn)
| Response (ok : bool) (status : Z) (statusText : string) (decoded : completion json).

(** What the file system holds at a path. *)
Inductive FsEntry : Type :=
| Missing
| Unreadable (e : exn)
| File (content : string).

(** A timer handle as returned by [setInterval]: always truthy. *)
Definition handle : Type := positive.

(** ** The world and the [js] monad *)

Inductive effect : Type :=
| LoggerInfo (line : string)
| LoggerError (line : string)
| ExistsSync (path : string)
| ReadFileSync (path : string)
| FetchCall (req : Request)
| ApiEmit (ev : SyncEvent)
| SetInterval (ms : Z) (h : handle)
| ClearInterval (h : handle)
| ContextSet (key : string) (h : handle)
| ContextDelete (key : string).

(** One loop instance and its host: the [Set] created by [gateway.start],
    the host's [api.context] map, the armed timers, and the calls made so
    far, oldest first. *)
Record World : Type := {
  seenMessageIds : list jsval;
  context : gmap string handle;
  timers : gset handle;
  trace : list effect
}.

Definition js (A : Type) : Type := World -> completion A * World.

Definition ret {A} (a : A) : js A := fun w => (Normal a, w).

Definition throw {A} (e : exn) : js A := fun w => (Throw e, w).

Definition bind {A B} (m : js A) (k : A -> js B) : js B :=
  fun w =>
    match m w with
    | (Normal a, w') => k a w'
    | (Throw e, w') => (Throw e, w')
    end.

Definition lift {A} (c : completion A) : js A := fun w => (c, w).

(** [try { body } catch (error) { handler }]. *)
Definition try_catch {A} (body : js A) (handler : exn -> js A) : js A :=
  fun w =>
    match body w with
    | (Normal a, w') => (Normal a, w')
    | (Throw e, w') => handler e w'
    end.

Declare Scope js_scope.
Delimit Scope js_scope with js.
Notation "x <- m ;; k" := (bind m (fun x => k))
  (at level 100, m at next level, right associativity) : js_scope.
Notation "m ;; k" := (bind m (fun _ => k))
  (at level 100, right associativity) : js_scope.
Open Scope js_scope.

(** [for (const x of xs) body]: stops at the first throw. *)
Fixpoint for_of {A} (xs : list A) (body : A -> js unit) : js unit :=
  match xs with
  | [] => ret tt
  | x :: rest => body x ;; for_of rest body
  end.

Definition perform (e : effect) : js unit :=
  fun w =>
    (Normal tt,
     {| seenMessageIds := seenMessageIds w; context := context w;
        timers := timers w; trace := trace w ++ [e] |}).

Definition logger_info (line : string) : js unit := perform (LoggerInfo line).
Definition logger_error (line : string) : js unit := perform (LoggerError line).

(** The events handed to [api.emit] so far, oldest first. *)
Fixpoint emitted (t : list effect) : list SyncEvent :=
  match t with
  | [] => []
  | ApiEmit ev :: rest => ev :: emitted rest
  | _ :: rest => emitted rest
  end.

(** [seenMessageIds.has(v)] and [seenMessageIds.add(v)]. *)
Definition has (seen : list jsval) (v : jsval) : bool :=
  existsb (same_value_zero v) seen.

Definition seen_has (v : jsval) : js bool :=
  fun w => (Normal (has (seenMessageIds w) v), w).

Definition seen_add (v : jsval) : js unit :=
  fun w =>
    (Normal tt,
     {| seenMessageIds :=
          if has (seenMessageIds w) v then seenMessageIds w
          else seenMessageIds w ++ [v];
        context := context w; timers := timers w; trace := trace w |}).

Definition seen_new : js unit :=
  fun w =>
    (Normal tt,
     {| seenMessageIds := []; context := context w;
        timers := timers w; trace := trace w |}).

(** [setInterval], [clearInterval] and the host's [api.context] map. *)
Definition set_interval (ms : Z) (h : handle) : js handle :=
  fun w =>
    (Normal h,
     {| seenMessageIds := seenMessageIds w; context := context w;
        timers := {[h]} ∪ timers w; trace := trace w ++ [SetInterval ms h] |}).

Definition clear_interval (h : handle) : js unit :=
  fun w =>
    (Normal tt,
     {| seenMessageIds := seenMessageIds w; context := context w;
        timers := timers w ∖ {[h]}; trace := trace w ++ [ClearInterval h] |}).

Definition context_get (key : string) : js (option handle) :=
  fun w => (Normal (context w !! key), w).

Definition context_set (key : string) (h : handle) : js unit :=
  fun w =>
    (Normal tt,
     {| seenMessageIds := seenMessageIds w; context := <[key := h]> (context w);
        timers := timers w; trace := trace w ++ [ContextSet key h] |}).

Definition context_delete (key : string) : js unit :=
  fun w =>
    (Normal tt,
     {| seenMessageIds := seenMessageIds w; context := delete key (context w);
        timers := timers w; trace := trace w ++ [ContextDelete key] |}).

(** ** Strings *)

(** A string read from a file stands for the JavaScript string in its
    UTF-8 encoding, so a character is one to four bytes. *)
Definition bytes (codes : list nat) : string :=
  string_of_list_ascii (map ascii_of_nat codes).

(** The white space and line terminators that [String.prototype.trim]
    strips: U+0009 to U+000D and U+0020; U+00A0; U+1680; U+2000 to
    U+200A; U+2028, U+2029, U+202F; U+205F; U+3000; U+FEFF. *)
Definition white_space : list string :=
  map bytes
    [[9]; [10]; [11]; [12]; [13]; [32];
     [194; 160];
     [225; 154; 128];
     [226; 128; 128]; [226; 128; 129]; [226; 128; 130]; [226; 128; 131];
     [226; 128; 132]; [226; 128; 133]; [226; 128; 134]; [226; 128; 135];
     [226; 128; 136]; [226; 128; 137]; [226; 128; 138];
     [226; 128; 168]; [226; 128; 169]; [226; 128; 175];
     [226; 129; 159];
     [227; 128; 128];
     [239; 187; 191]].

(** The first of the [patterns] that [s] starts with. *)
Definition leading (patterns : list string) (s : string) : option string :=
  List.find (fun pattern => String.prefix pattern s) patterns.

Fixpoint drop_bytes (n : nat) (s : string) : string :=
  match n, s with
  | S k, String _ rest => drop_bytes k rest
  | _, _ => s
  end.

(** Removes leading [patterns] from [s], at most [fuel] of them. *)
Fixpoint strip (patterns : list string) (fuel : nat) (s : string) : string :=
  match fuel with
  | O => s
  | S fuel' =>
      match leading patterns s with
      | Some pattern => strip patterns fuel' (drop_bytes (String.length pattern) s)
      | None => s
      end
  end.

Definition trim_start (s : string) : string :=
  strip white_space (String.length s) s.

(** The end is trimmed on the reversed bytes, against the reversed
    encodings. *)
Definition trim_end (s : string) : string :=
  String.rev (strip (map String.rev white_space) (String.length s) (String.rev s)).

(** [s.trim()]. *)
Definition trim (s : string) : string :=
  trim_end (trim_start s).

(** The replacement text of [str.replace(pattern, replacement)] for one
    match of a pattern without capture groups: [$$] is a dollar sign,
    [$&] the matched text, [$`] and [$'] the text before and after the
    match; any other [$] stands for itself. *)
Fixpoint substitution (replacement matched before after : string) : string :=
  match replacement with
  | EmptyString => EmptyString
  | String "$"%char (String "$"%char rest) =>
      String "$"%char (substitution rest matched before after)
  | String "$"%char (String "&"%char rest) =>
      matched +:+ substitution rest matched before after
  | String "$"%char (String "`"%char rest) =>
      before +:+ substitution rest matched before after
  | String "$"%char (String "'"%char rest) =>
      after +:+ substitution rest matched before after
  | String c rest => String c (substitution rest matched before after)
  end.

(** ** The plugin *)

Section Plugin.

(** [os.homedir()], the file system, and the event sink: given the
    events it has received so far and a new one, the exception it
    throws, if any. *)
Variable homedir : string.
Variable fs : string -> FsEntry.
Variable sink : list SyncEvent -> SyncEvent -> option exn.

(** [api.config]. *)
Variable api_config : ApiConfig.

(** [path.replace(/^~/, homedir())]: only a leading [~] matches, and the
    home directory is read as a replacement text. *)
Definition expand_home (path : string) : string :=
  match path with
  | String "~"%char rest => substitution homedir "~" "" rest +:+ rest
  | _ => path
  end.

Definition loadAuthSession (path : string) : js string :=
  try_catch
    (let expandedPath := expand_home path in
     perform (ExistsSync expandedPath) ;;
     match fs expandedPath with
     | Missing =>
         throw (Error ("Auth session file not found: " +:+ expandedPath))
     | Unreadable e =>
         perform (ReadFileSync expandedPath) ;; throw e
     | File raw =>
         perform (ReadFileSync expandedPath) ;;
         let content := trim raw in
         if String.eqb content ""
         then throw (Error ("Auth session file is empty: " +:+ expandedPath))
         else ret content
     end)
    (fun error => throw (Error ("Failed to load auth session: " +:+ message error))).

(** [{...target, ...source}]: the later spread wins. *)
Definition spread (target source : gmap string string) : gmap string string :=
  source ∪ target.

(** [value && { [name]: value }], spread into an object literal: a
    falsy value (unset, or the empty string) contributes nothing. *)
Definition optional_header (name : string) (value : option string) : gmap string string :=
  match value with
  | Some v => if String.eqb v "" then ∅ else {[ name := v ]}
  | None => ∅
  end.

Definition request_headers (config : SupChatConfig) (authSession : string)
    (options : RequestInit) : gmap string string :=
  spread
    (spread
       (spread
          (<["Content-Type" := "application/json"]>
             (<["Cookie" := "auth_session=" +:+ authSession]> ∅))
          (optional_header "x-sup-client-version" (clientVersion config)))
       (optional_header "x-sup-session-id" (sessionId config)))
    (headers options).

(** The request handed to [fetch]: [{...options, headers}]. *)
Definition build_request (config : SupChatConfig) (authSession endpoint : string)
    (options : RequestInit) : Request :=
  {| url := baseUrl config +:+ endpoint;
     init := {| method := method options;
                body := body options;
                headers := request_headers config authSession options |} |}.

Definition makeSupRequest (config : SupChatConfig) (authSession endpoint : string)
    (options : RequestInit) (answer : HttpOutcome) : js json :=
  perform (FetchCall (build_request config authSession endpoint options)) ;;
  match answer with
  | NetworkFailure e => throw e
  | Response ok status statusText decoded =>
      if negb ok
      then throw (Error ("API request failed: " +:+ pretty status +:+ " " +:+ statusText))
      else lift decoded
  end.

(** The payload of [sendChatMessage].  [now] and [suffix] are the
    renderings of [Date.now()] and of the random base-36 suffix. *)
Definition message_payload (chatId text : string) (mentions : list string)
    (now suffix : string) : json :=
  JObj [
    ("json", JObj [
       ("optimisticId", JStr ("msg_" +:+ now +:+ "_" +:+ suffix));
       ("chatId", JStr chatId);
       ("content", JStr text);
       ("contentData", JObj [
          ("type", JStr "doc");
          ("content", JArr [
             JObj [
               ("type", JStr "paragraph");
               ("content", JArr [
                  JObj [
                    ("type", JStr "text");
                    ("text", JStr text);
                    ("marks", JArr [])
                  ]
               ])
             ]
          ])
       ]);
       ("mentions", JArr (map JStr mentions));
       ("attachments", JArr []);
       ("isGenerated", JBool true);
       ("isPostComment", JBool false);
       ("visibility", JStr "public")
    ]);
    ("meta", JObj [ ("values", JObj []) ])
  ].

Definition send_options (chatId text : string) (mentions : list string)
    (now suffix : string) : RequestInit :=
  {| method := Some "POST";
     body := Some (message_payload chatId text mentions now suffix);
     headers := ∅ |}.

Definition sendChatMessage (config : SupChatConfig) (authSession chatId text : string)
    (mentions : list string) (now suffix : string) (answer : HttpOutcome) : js unit :=
  makeSupRequest config authSession "/api/trpc/chatMessage.create"
    (send_options chatId text mentions now suffix) answer ;;
  ret tt.

Definition fetchChatPanelData (config : SupChatConfig) (authSession : string)
    (answer : HttpOutcome) : js json :=
  makeSupRequest config authSession "/api/trpc/loader.chatPanelData" no_options answer.

(** [api.emit("message", ev)]: the call is recorded, then the sink may
    throw. *)
Definition api_emit (ev : SyncEvent) : js unit :=
  fun w =>
    let w' := snd (perform (ApiEmit ev) w) in
    match sink (emitted (trace w)) ev with
    | Some e => (Throw e, w')
    | None => (Normal tt, w')
    end.

(** ** The synchronization loop *)

(** The body of the inner [for] of [poll], for one [msg] of [chat]. *)
Definition process_message (chat msg : json) : js unit :=
  id <- lift (get (Some msg) "id") ;;
  known <- seen_has id ;;
  if known then ret tt
  else
    seen_add id ;;
    ty <- lift (get (Some chat) "type") ;;
    let isDM := is_direct ty in
    mentions <- lift (get (Some msg) "mentions") ;;
    hasMention <- lift (includes_opt mentions (botUserId api_config)) ;;
    if isDM || hasMention then
      chatId <- lift (get (Some chat) "id") ;;
      senderId <- lift (get (Some msg) "senderId") ;;
      content <- lift (get (Some msg) "content") ;;
      api_emit {| ev_channel := "sup-chat";
                  ev_chatId := chatId;
                  ev_messageId := id;
                  ev_senderId := senderId;
                  ev_text := content;
                  ev_isDM := isDM;
                  ev_mentions := mentions |}
    else ret tt.

(** The body of the outer [for], for one [chat]. *)
Definition process_chat (chat : json) : js unit :=
  messages <- lift (get (Some chat) "messages") ;;
  if truthy messages then
    msgs <- lift (iterate "chat.messages" messages) ;;
    for_of msgs (process_message chat)
  else ret tt.

(** [data?.result?.data?.chats]. *)
Definition snapshot_chats (data : json) : jsval :=
  get_opt (get_opt (get_opt (Some data) "result") "data") "chats".

Definition process_snapshot (data : json) : js unit :=
  if truthy (snapshot_chats data) then
    chats <- lift (iterate "data.result.data.chats" (snapshot_chats data)) ;;
    for_of chats process_chat
  else ret tt.

(** The [try] block of [poll]. *)
Definition poll_body (config : SupChatConfig) (authSession : string)
    (answer : HttpOutcome) : js unit :=
  data <- fetchChatPanelData config authSession answer ;;
  process_snapshot data.

(** One fetch-and-process cycle.  [answer] is what the remote service
    does with this cycle's request. *)
Definition poll (config : SupChatConfig) (authSession : string)
    (answer : HttpOutcome) : js unit :=
  try_catch
    (poll_body config authSession answer)
    (fun error => logger_error ("[sup-chat] Poll error: " +:+ message error)).

(** ** Gateway and outbound *)

Definition interval_key : string := "sup-chat-poll-interval".

(** [gateway.start].  [h] is the handle [setInterval] returns and
    [first] the remote's answer to the initial poll.  These are the calls
    of [start] itself, in its own order; a tick of the armed timer that
    fires while the initial poll is awaited is a cycle of its own (see
    [cycles]). *)
Definition start (h : handle) (first : HttpOutcome) : js unit :=
  match channels_sup_chat api_config with
  | Some config =>
      if default false (enabled config) then
        logger_info "[sup-chat] Starting channel gateway" ;;
        try_catch
          (authSession <- loadAuthSession (authSessionPath config) ;;
           let interval := default 5000%Z (pollInterval config) in
           seen_new ;;
           intervalId <- set_interval interval h ;;
           poll config authSession first ;;
           context_set interval_key intervalId ;;
           logger_info ("[sup-chat] Gateway started (polling every "
                          +:+ pretty interval +:+ "ms)"))
          (fun error =>
             logger_error ("[sup-chat] Failed to start gateway: " +:+ message error) ;;
             throw error)
      else logger_info "[sup-chat] Channel disabled, skipping start"
  | None => logger_info "[sup-chat] Channel disabled, skipping start"
  end.

(** [gateway.stop]. *)
Definition stop : js unit :=
  intervalId <- context_get interval_key ;;
  match intervalId with
  | Some h => clear_interval h ;; context_delete interval_key
  | None => ret tt
  end ;;
  logger_info "[sup-chat] Gateway stopped".

Inductive SendResult : Type :=
| SendOk
| SendFailed (error : string).

(** [outbound.sendText]. *)
Definition sendText (ctx : ChatContext) (now suffix : string)
    (answer : HttpOutcome) : js SendResult :=
  try_catch
    (match channels_sup_chat api_config with
     | None => ret (SendFailed "Sup chat not configured")
     | Some config =>
         authSession <- loadAuthSession (authSessionPath config) ;;
         sendChatMessage config authSession (ctx_chatId ctx) (ctx_text ctx) []
           now suffix answer ;;
         logger_info ("[sup-chat] Sent message to chat " +:+ ctx_chatId ctx) ;;
         ret SendOk
     end)
    (fun error =>
       logger_error ("[sup-chat] Failed to send message: " +:+ message error) ;;
       ret (SendFailed (message error))).

(** A run of the loop: the cycles of one loop instance, one per answer
    of the remote service, in the order the answers are processed.  The
    host is single-threaded and the processing of an answer has no
    [await], so the processing of two answers never interleaves. *)
Fixpoint cycles (config : SupChatConfig) (authSession : string)
    (answers : list HttpOutcome) (w : World) : World :=
  match answers with
  | [] => w
  | answer :: rest => cycles config authSession rest (snd (poll config authSession answer w))
  end.

End Plugin.

(** ** Notions used in the statements *)

(** The events emitted so far for the message id [M], and how often [M]
    is in the seen-set.  On a primitive [M] (a string, as message ids
    are; see [same_value_zero_eq]) the test is equality with [M]. *)
Definition events_for (M : jsval) (t : list effect) : list SyncEvent :=
  List.filter (fun ev => same_value_zero M (ev_messageId ev)) (emitted t).

Definition occurrences (M : jsval) (seen : list jsval) : nat :=
  length (List.filter (same_value_zero M) seen).

(** A loop instance right after [new Set()]: nothing seen, nothing
    emitted. *)
Definition loop_start (w : World) : Prop :=
  seenMessageIds w = [] /\ emitted (trace w) = [].

(** The deduplication invariant for one id: it is in the seen-set at most
    once, and an event was emitted for it at most once, and only if it is
    in the seen-set. *)
Definition dedup_inv (M : jsval) (w : World) : Prop :=
  occurrences M (seenMessageIds w) <= 1 /\
  length (events_for M (trace w)) <= (if has (seenMessageIds w) M then 1 else 0).

(** What one cycle does to the world after its request is issued, one
    atomic change at a time: a new id is added to the seen-set, alone or
    followed by the emission of its event, or an error is logged. *)
Inductive loop_step (w : World) : World -> Prop :=
| step_add (id : jsval) :
    has (seenMessageIds w) id = false ->
    loop_step w {| seenMessageIds := seenMessageIds w ++ [id]; context := context w;
                   timers := timers w; trace := trace w |}
| step_add_emit (ev : SyncEvent) :
    has (seenMessageIds w) (ev_messageId ev) = false ->
    loop_step w {| seenMessageIds := seenMessageIds w ++ [ev_messageId ev];
                   context := context w; timers := timers w;
                   trace := trace w ++ [ApiEmit ev] |}
| step_log (line : string) :
    loop_step w {| seenMessageIds := seenMessageIds w; context := context w;
                   timers := timers w; trace := trace w ++ [LoggerError line] |}.

(** A computation whose every run is a sequence of such changes. *)
Definition loop_steps {A} (m : js A) : Prop :=
  forall w, rtc loop_step w (snd (m w)).

(** The effects of a cycle after its request: emissions and error logs. *)
Definition cycle_effect (e : effect) : Prop :=
  match e with
  | ApiEmit _ | LoggerError _ => True
  | _ => False
  end.

(** The ids of the messages a snapshot holds, in snapshot order. *)
Definition chat_message_ids (chat : json) : list jsval :=
  match iterate "chat.messages" (get_opt (Some chat) "messages") with
  | Normal msgs => map (fun msg => get_opt (Some msg) "id") msgs
  | Throw _ => []
  end.

Definition snapshot_message_ids (data : json) : list jsval :=
  match iterate "data.result.data.chats" (snapshot_chats data) with
  | Normal chats => flat_map chat_message_ids chats
  | Throw _ => []
  end.




(** [msg.mentions] as the [SupChatMessage] interface declares it: absent
    (or null), or an array. *)
Definition mentions_declared (mentions : jsval) : Prop :=
  match mentions with
  | None | Some JNull | Some (JArr _) => True
  | _ => False
  end.

(** The relevance of a message, as the specification words it: its chat
    is direct, or the configured identity is among its mentions. *)
Definition mentions_self (mentions : jsval) (self : option string) : Prop :=
  exists items b, mentions = Some (JArr items) /\ self = Some b /\ In (JStr b) items.

Definition relevant (chatType mentions : jsval) (self : option string) : Prop :=
  chatType = Some (JStr "direct") \/ mentions_self mentions self.

(** The credential file can be loaded. *)
Definition credential_ok (homedir : string) (fs : string -> FsEntry) (path : string) : Prop :=
  exists raw, fs (expand_home homedir path) = File raw /\ trim raw <> "".

(** The remote service accepts the request and its answer decodes. *)
Definition request_ok (answer : HttpOutcome) : Prop :=
  exists status statusText data, answer = Response true status statusText (Normal data).

(** [v[i]] on a decoded value. *)
Definition at_index (v : jsval) (i : nat) : jsval :=
  match v with
  | Some (JArr items) => items !! i
  | _ => None
  end.

(** The channel's configuration block is absent or its [enabled] flag is
    falsy. *)
Definition channel_disabled (api : ApiConfig) : Prop :=
  channels_sup_chat api = None \/
  exists config, channels_sup_chat api = Some config /\
                 (enabled config = None \/ enabled config = Some false).

(** The name of the call an effect records. *)
Definition effect_name (e : effect) : string :=
  match e with
  | LoggerInfo _ => "logger.info"
  | LoggerError _ => "logger.error"
  | ExistsSync _ => "existsSync"
  | ReadFileSync _ => "readFileSync"
  | FetchCall _ => "fetch"
  | ApiEmit _ => "api.emit"
  | SetInterval _ _ => "setInterval"
  | ClearInterval _ => "clearInterval"
  | ContextSet _ _ => "context.set"
  | ContextDelete _ => "context.delete"
  end.

(** An empty world, and sample data for the closed examples. *)
Definition empty_world : World :=
  {| seenMessageIds := []; context := ∅; timers := ∅; trace := [] |}.

Definition sample_config : SupChatConfig :=
  {| baseUrl := "https://sup.net";
     authSessionPath := "~/.config/sup/auth_session";
     clientVersion := Some "2.0";
     sessionId := None;
     pollInterval := None;
     enabled := Some true |}.

Definition sample_api : ApiConfig :=
  {| channels_sup_chat := Some sample_config; botUserId := Some "bot" |}.

Definition sample_fs (path : string) : FsEntry :=
  if String.eqb path "/home/claw/.config/sup/auth_session" then File "tok" else Missing.

Definition quiet_sink : list SyncEvent -> SyncEvent -> option exn :=
  fun _ _ => None.

Definition failing_sink : list SyncEvent -> SyncEvent -> option exn :=
  fun _ _ => Some (Error "sink unavailable").

Definition sample_message (id : string) : json :=
  JObj [("id", JStr id); ("senderId", JStr "u1"); ("content", JStr "hi")].

Definition sample_snapshot (chatType : string) (messages : list json) : json :=
  JObj [("result", JObj [("data", JObj [("chats", JArr [
    JObj [("id", JStr "C1"); ("type", JStr chatType); ("messages", JArr messages)]])])])].

Definition ok_answer (data : json) : HttpOutcome :=
  Response true 200 "OK" (Normal data).

(** ** The rest of the plugin *)

Section Search.

(** [encodeURIComponent(JSON.stringify({ query }))], built into the
    host. *)
Variable encode_query : string -> string.

(** [searchUserData]; [query] is [None] when the argument is left out. *)
Definition searchUserData (config : SupChatConfig) (authSession : string)
    (query : option string) (answer : HttpOutcome) : js json :=
  let params :=
    match query with
    | Some q => if String.eqb q "" then "" else "?input=" +:+ encode_query q
    | None => ""
    end in
  makeSupRequest config authSession ("/api/trpc/userData.searchAll" +:+ params)
    no_options answer.

End Search.

(** [channel.config.listAccountIds(cfg)], on the host's untyped
    configuration object. *)
Definition listAccountIds (cfg : jsval) : completion (list string) :=
  match get cfg "channels" with
  | Normal channels =>
      if truthy (get_opt (get_opt channels "sup-chat") "enabled")
      then Normal ["default"]
      else Normal []
  | Throw e => Throw e
  end.

(** The own properties an object spread [{...v}] copies: the members of
    an object, the indexed items of an array or characters of a string,
    nothing for any other value. *)
Definition spread_members (v : jsval) : list (string * json) :=
  match v with
  | Some (JObj members) => members
  | Some (JArr items) => imap (fun i item => (pretty i, item)) items
  | Some (JStr s) =>
      imap (fun i c => (pretty i, JStr (String c ""))) (list_ascii_of_string s)
  | _ => []
  end.

(** [channel.config.resolveAccount(cfg, accountId)]:
    [{ accountId: accountId ?? "default", ...channelConfig }] with
    [channelConfig = cfg.channels?.["sup-chat"] ?? {}]. *)
Definition resolveAccount (cfg accountId : jsval) : completion json :=
  match get cfg "channels" with
  | Normal channels =>
      let channelConfig :=
        match get_opt channels "sup-chat" with
        | None | Some JNull => Some (JObj [])
        | Some block => Some block
        end in
      let account :=
        match accountId with
        | None | Some JNull => JStr "default"
        | Some a => a
        end in
      Normal (JObj (("accountId", account) :: spread_members channelConfig))
  | Throw e => Throw e
  end.

(** ** Further notions used in the statements *)

(** An event that passed the relevance test for the identity [self]. *)
Definition relevant_event (self : option string) (ev : SyncEvent) : Prop :=
  ev_channel ev = "sup-chat" /\
  (ev_isDM ev = true \/ includes_opt (ev_mentions ev) self = Normal true).

(** A computation that keeps a property of the world, however it ends. *)
Definition keeps (I : World -> Prop) {A} (m : js A) : Prop :=
  forall w, I w -> I (snd (m w)).

(** The requests issued so far. *)
Fixpoint fetched (t : list effect) : list Request :=
  match t with
  | [] => []
  | FetchCall req :: rest => req :: fetched rest
  | _ :: rest => fetched rest
  end.

(** The calls a cycle can make: a request, emissions, error logs. *)
Definition loop_effect (e : effect) : Prop :=
  match e with
  | FetchCall _ | ApiEmit _ | LoggerError _ => True
  | _ => False
  end.

(** Every message of the list has an id that is already seen. *)
Definition settled_messages (seen : list jsval) (msgs : list json) : Prop :=
  Forall (fun msg => exists id, get (Some msg) "id" = Normal id /\ has seen id = true) msgs.

(** Every message of the chat, if it has any, is already seen. *)
Definition settled_chat (seen : list jsval) (chat : json) : Prop :=
  exists messages,
    get (Some chat) "messages" = Normal messages /\
    (truthy messages = false \/
     exists msgs, iterate "chat.messages" messages = Normal msgs /\ settled_messages seen msgs).

(** No white-space character at the start and none at the end. *)
Definition trimmed (s : string) : Prop :=
  (forall space rest, In space white_space -> s <> space +:+ rest) /\
  (forall space front, In space white_space -> s <> front +:+ space).

(** A snapshot of the declared shape: an array of chat objects, each
    with an array of message objects whose [mentions] is absent or an
    array. *)
Definition declared_message (msg : json) : Prop :=
  exists members, msg = JObj members /\ mentions_declared (own_property members "mentions").

Definition declared_chat (chat : json) : Prop :=
  exists members msgs,
    chat = JObj members /\
    own_property members "messages" = Some (JArr msgs) /\
    Forall declared_message msgs.

Definition declared_snapshot (data : json) : Prop :=
  exists chats, snapshot_chats data = Some (JArr chats) /\ Forall declared_chat chats.

(** What the specification says a cycle does with a snapshot, as a pure
    function on the seen-set and the events emitted: for every chat, for
    every message, in snapshot order, skip a seen id, else add it and,
    if the message is relevant, emit its event. *)
Definition spec_message (self : option string) (chat msg : json)
    (st : list jsval * list SyncEvent) : list jsval * list SyncEvent :=
  let id := get_opt (Some msg) "id" in
  let mentions := get_opt (Some msg) "mentions" in
  let isDM := is_direct (get_opt (Some chat) "type") in
  let hasMention :=
    match includes_opt mentions self with
    | Normal b => b
    | Throw _ => false
    end in
  if has (fst st) id then st
  else
    (fst st ++ [id],
     if isDM || hasMention
     then snd st ++ [{| ev_channel := "sup-chat";
                        ev_chatId := get_opt (Some chat) "id";
                        ev_messageId := id;
                        ev_senderId := get_opt (Some msg) "senderId";
                        ev_text := get_opt (Some msg) "content";
                        ev_isDM := isDM;
                        ev_mentions := mentions |}]
     else snd st).

Definition spec_chat (self : option string) (st : list jsval * list SyncEvent)
    (chat : json) : list jsval * list SyncEvent :=
  match get_opt (Some chat) "messages" with
  | Some (JArr msgs) => fold_left (fun st msg => spec_message self chat msg st) msgs st
  | _ => st
  end.

Definition spec_snapshot (self : option string) (data : json)
    (seen : list jsval) : list jsval * list SyncEvent :=
  match snapshot_chats data with
  | Some (JArr chats) => fold_left (spec_chat self) chats (seen, [])
  | _ => (seen, [])
  end.









(** The world of a cycle that started in [w0] and has reached the state
    [st] of the specification. *)
Definition follows (w0 : World) (st : list jsval * list SyncEvent) (w : World) : Prop :=
  seenMessageIds w = fst st /\ context w = context w0 /\ timers w = timers w0 /\
  trace w = trace w0 ++ map ApiEmit (snd st).

(** A credential file with a byte-order mark, blanks, a no-break space
    and a line feed around the token. *)
Definition padded_content : string :=
  bytes [239; 187; 191] +:+ "  tok " +:+ bytes [194; 160; 10].

Definition padded_fs (path : string) : FsEntry :=
  File padded_content.

(** ** Values and lists *)

Lemma same_value_zero_eq (a b : jsval) :
  same_value_zero a b = true -> a = b /\ is_primitive a = true.
Proof.
  destruct a as [[| x | x | x | x | x]|], b as [[| y | y | y | y | y]|];
    simpl; try discriminate; intros H; split; try reflexivity.
  - apply Bool.eqb_prop in H. congruence.
  - apply Z.eqb_eq in H. congruence.
  - apply String.eqb_eq in H. congruence.
Qed.

Lemma same_value_zero_refl (a : jsval) :
  is_primitive a = true -> same_value_zero a a = true.
Proof.
  destruct a as [[| x | x | x | x | x]|]; simpl; try discriminate; intros _.
  - reflexivity.
  - apply Bool.eqb_reflx.
  - apply Z.eqb_refl.
  - apply String.eqb_refl.
  - reflexivity.
Qed.

Lemma emitted_app (t1 t2 : list effect) :
  emitted (t1 ++ t2) = emitted t1 ++ emitted t2.
Proof.
  induction t1 as [| e t1 IH]; simpl; [reflexivity |].
  destruct e; simpl; rewrite IH; reflexivity.
Qed.

Lemma events_for_app (M : jsval) (t1 t2 : list effect) :
  events_for M (t1 ++ t2) = events_for M t1 ++ events_for M t2.
Proof. unfold events_for. rewrite emitted_app. apply List.filter_app. Qed.

Lemma events_for_emit (M : jsval) (t : list effect) (ev : SyncEvent) :
  events_for M (t ++ [ApiEmit ev]) =
  events_for M t ++ (if same_value_zero M (ev_messageId ev) then [ev] else []).
Proof.
  rewrite events_for_app. unfold events_for. simpl.
  destruct (same_value_zero M (ev_messageId ev)); reflexivity.
Qed.

Lemma events_for_quiet (M : jsval) (t : list effect) (e : effect) :
  emitted [e] = [] -> events_for M (t ++ [e]) = events_for M t.
Proof.
  intros H. rewrite events_for_app. unfold events_for at 2. rewrite H. simpl.
  apply app_nil_r.
Qed.

Lemma has_app (seen : list jsval) (v M : jsval) :
  has (seen ++ [v]) M = has seen M || same_value_zero M v.
Proof. unfold has. rewrite existsb_app. simpl. rewrite orb_false_r. reflexivity. Qed.

Lemma occurrences_app (M v : jsval) (seen : list jsval) :
  occurrences M (seen ++ [v]) =
  occurrences M seen + (if same_value_zero M v then 1 else 0).
Proof.
  unfold occurrences. rewrite List.filter_app, length_app. simpl.
  destruct (same_value_zero M v); reflexivity.
Qed.

Lemma has_false_occurrences (M : jsval) (seen : list jsval) :
  has seen M = false -> occurrences M seen = 0.
Proof.
  unfold has, occurrences. induction seen as [| x seen IH]; simpl; [reflexivity |].
  destruct (same_value_zero M x); simpl; [discriminate | exact IH].
Qed.

(** On a primitive id the boolean tests are plain membership. *)
Lemma has_In (seen : list jsval) (M : jsval) :
  is_primitive M = true -> (has seen M = true <-> In M seen).
Proof.
  intros HM. unfold has. rewrite existsb_exists. split.
  - intros (x & Hx & Hs). apply same_value_zero_eq in Hs as [-> _]. exact Hx.
  - intros HIn. exists M. split; [exact HIn | apply same_value_zero_refl, HM].
Qed.

Lemma events_for_In (M : jsval) (t : list effect) (ev : SyncEvent) :
  is_primitive M = true ->
  (In ev (events_for M t) <-> In ev (emitted t) /\ ev_messageId ev = M).
Proof.
  intros HM. unfold events_for. rewrite List.filter_In. split.
  - intros [HIn Hs]. apply same_value_zero_eq in Hs as [-> _]. auto.
  - intros [HIn <-]. split; [exact HIn | apply same_value_zero_refl, HM].
Qed.

(** ** The [js] monad and the steps of a cycle *)

Lemma loop_steps_ret {A} (a : A) : loop_steps (ret a).
Proof. intros w. apply rtc_refl. Qed.

Lemma loop_steps_throw {A} (e : exn) : loop_steps (@throw A e).
Proof. intros w. apply rtc_refl. Qed.

Lemma loop_steps_lift {A} (c : completion A) : loop_steps (lift c).
Proof. intros w. apply rtc_refl. Qed.

Lemma loop_steps_bind {A B} (m : js A) (k : A -> js B) :
  loop_steps m -> (forall a, loop_steps (k a)) -> loop_steps (bind m k).
Proof.
  intros Hm Hk w. unfold bind. specialize (Hm w).
  destruct (m w) as [[a | e] w1]; simpl in *.
  - eapply rtc_trans; [exact Hm | apply Hk].
  - exact Hm.
Qed.

Lemma loop_steps_try_catch {A} (body : js A) (handler : exn -> js A) :
  loop_steps body -> (forall e, loop_steps (handler e)) -> loop_steps (try_catch body handler).
Proof.
  intros Hb Hh w. unfold try_catch. specialize (Hb w).
  destruct (body w) as [[a | e] w1]; simpl in *.
  - exact Hb.
  - eapply rtc_trans; [exact Hb | apply Hh].
Qed.

Lemma loop_steps_for_of {A} (xs : list A) (body : A -> js unit) :
  (forall x, loop_steps (body x)) -> loop_steps (for_of xs body).
Proof.
  intros Hbody. induction xs as [| x xs IH]; simpl.
  - apply loop_steps_ret.
  - apply loop_steps_bind; [apply Hbody | intros _; exact IH].
Qed.

Lemma loop_steps_logger_error (line : string) : loop_steps (logger_error line).
Proof. intros w. apply rtc_once. simpl. apply step_log. Qed.

Create HintDb steps.

#[local] Hint Resolve loop_steps_ret loop_steps_throw loop_steps_lift
  loop_steps_logger_error : steps.

#[local] Arguments get : simpl never.
#[local] Arguments includes_opt : simpl never.
#[local] Arguments iterate : simpl never.

Lemma process_message_steps sink api chat msg :
  loop_steps (process_message sink api chat msg).
Proof.
  intros w. unfold process_message, bind, lift, seen_has, seen_add, api_emit, ret.
  destruct (get (Some msg) "id") as [id | e]; simpl; [| apply rtc_refl].
  destruct (has (seenMessageIds w) id) eqn:Hseen; simpl; [apply rtc_refl |].
  rewrite Hseen.
  destruct (get (Some chat) "type") as [ty | e]; simpl;
    [| apply rtc_once, step_add, Hseen].
  destruct (get (Some msg) "mentions") as [ms | e]; simpl;
    [| apply rtc_once, step_add, Hseen].
  destruct (includes_opt ms (botUserId api)) as [hasMention | e]; simpl;
    [| apply rtc_once, step_add, Hseen].
  destruct (is_direct ty || hasMention); simpl;
    [| apply rtc_once, step_add, Hseen].
  destruct (get (Some chat) "id") as [chatId | e]; simpl;
    [| apply rtc_once, step_add, Hseen].
  destruct (get (Some msg) "senderId") as [senderId | e]; simpl;
    [| apply rtc_once, step_add, Hseen].
  destruct (get (Some msg) "content") as [content | e]; simpl;
    [| apply rtc_once, step_add, Hseen].
  destruct (sink (emitted (trace w)) _) as [e |]; simpl;
    match goal with
    | |- context [ApiEmit ?ev] => apply rtc_once, (step_add_emit w ev), Hseen
    end.
Qed.

Lemma process_chat_steps sink api chat :
  loop_steps (process_chat sink api chat).
Proof.
  unfold process_chat.
  apply loop_steps_bind; [auto with steps |]. intros messages.
  destruct (truthy messages); [| auto with steps].
  apply loop_steps_bind; [auto with steps |]. intros msgs.
  apply loop_steps_for_of. intros msg. apply process_message_steps.
Qed.

Lemma process_snapshot_steps sink api data :
  loop_steps (process_snapshot sink api data).
Proof.
  unfold process_snapshot.
  destruct (truthy (snapshot_chats data)); [| auto with steps].
  apply loop_steps_bind; [auto with steps |]. intros chats.
  apply loop_steps_for_of. intros chat. apply process_chat_steps.
Qed.

(** The request of a cycle. *)
Lemma poll_request sink api config authSession answer w :
  let req := build_request config authSession "/api/trpc/loader.chatPanelData" no_options in
  rtc loop_step (snd (perform (FetchCall req) w))
    (snd (poll sink api config authSession answer w)).
Proof.
  intros req.
  unfold poll, try_catch, poll_body, fetchChatPanelData, makeSupRequest.
  unfold bind at 1. unfold bind at 1. fold req.
  destruct (perform (FetchCall req) w) as [c w1] eqn:Hp.
  injection Hp as <- Hw1. simpl.
  destruct answer as [e | ok status statusText decoded]; simpl.
  - apply loop_steps_logger_error.
  - destruct ok; simpl; [| apply loop_steps_logger_error].
    destruct decoded as [data | e]; simpl; [| apply loop_steps_logger_error].
    pose proof (process_snapshot_steps sink api data w1) as Hs.
    destruct (process_snapshot sink api data w1) as [[[] | e] w2]; simpl in *.
    + exact Hs.
    + eapply rtc_trans; [exact Hs | apply loop_steps_logger_error].
Qed.

(** ** What the steps of a cycle preserve *)

Lemma loop_step_frame w w' :
  loop_step w w' ->
  context w' = context w /\ timers w' = timers w /\
  (exists ids, seenMessageIds w' = seenMessageIds w ++ ids) /\
  (exists rest, trace w' = trace w ++ rest /\ Forall cycle_effect rest).
Proof.
  intros [id H | ev H | line]; simpl; repeat split.
  - exists [id]. reflexivity.
  - exists []. rewrite app_nil_r. auto.
  - exists [ev_messageId ev]. reflexivity.
  - exists [ApiEmit ev]. split; [reflexivity | repeat constructor].
  - exists []. rewrite app_nil_r. reflexivity.
  - exists [LoggerError line]. split; [reflexivity | repeat constructor].
Qed.

Lemma loop_steps_frame w w' :
  rtc loop_step w w' ->
  context w' = context w /\ timers w' = timers w /\
  (exists ids, seenMessageIds w' = seenMessageIds w ++ ids) /\
  (exists rest, trace w' = trace w ++ rest /\ Forall cycle_effect rest).
Proof.
  induction 1 as [w | w w1 w2 Hstep _ IH].
  - repeat split; [exists [] | exists []]; rewrite app_nil_r; auto.
  - apply loop_step_frame in Hstep as (Hc & Ht & [ids Hs] & [rest [Hr Hf]]).
    destruct IH as (Hc' & Ht' & [ids' Hs'] & [rest' [Hr' Hf']]).
    repeat split; try congruence.
    + exists (ids ++ ids'). rewrite Hs', Hs, app_assoc. reflexivity.
    + exists (rest ++ rest'). split.
      * rewrite Hr', Hr, app_assoc. reflexivity.
      * apply Forall_app. auto.
Qed.

Lemma loop_step_dedup M w w' :
  loop_step w w' -> dedup_inv M w -> dedup_inv M w'.
Proof.
  unfold dedup_inv. intros [id H | ev H | line] [Hocc Hev]; simpl.
  - rewrite occurrences_app, has_app.
    destruct (same_value_zero M id) eqn:Hs.
    + apply same_value_zero_eq in Hs as [-> _].
      rewrite (has_false_occurrences _ _ H). rewrite H in *. simpl. lia.
    + rewrite orb_false_r. split; [lia | exact Hev].
  - rewrite occurrences_app, has_app, events_for_emit, length_app.
    destruct (same_value_zero M (ev_messageId ev)) eqn:Hs.
    + apply same_value_zero_eq in Hs as [-> _].
      rewrite (has_false_occurrences _ _ H). rewrite H in *. simpl in *. lia.
    + rewrite orb_false_r. simpl. split; [lia | lia].
  - rewrite events_for_quiet by reflexivity. auto.
Qed.

Lemma loop_steps_dedup M w w' :
  rtc loop_step w w' -> dedup_inv M w -> dedup_inv M w'.
Proof. induction 1; eauto using loop_step_dedup. Qed.

(** Once an id is in the seen-set it stays there and nothing more is
    emitted for it. *)
Lemma loop_step_settled M w w' :
  loop_step w w' -> has (seenMessageIds w) M = true ->
  has (seenMessageIds w') M = true /\ events_for M (trace w') = events_for M (trace w).
Proof.
  intros [id H | ev H | line] HM; simpl.
  - rewrite has_app, HM. auto.
  - rewrite has_app, HM, events_for_emit. split; [reflexivity |].
    destruct (same_value_zero M (ev_messageId ev)) eqn:Hs.
    + apply same_value_zero_eq in Hs as [-> _]. congruence.
    + apply app_nil_r.
  - rewrite events_for_quiet by reflexivity. auto.
Qed.

Lemma loop_steps_settled M w w' :
  rtc loop_step w w' -> has (seenMessageIds w) M = true ->
  has (seenMessageIds w') M = true /\ events_for M (trace w') = events_for M (trace w).
Proof.
  induction 1 as [w | w w1 w2 Hstep _ IH]; intros HM; [auto |].
  apply (loop_step_settled M) in Hstep as [H1 E1]; [| exact HM].
  destruct (IH H1) as [H2 E2]. split; congruence.
Qed.

(** ** Cycles *)

Lemma loop_start_dedup M w : loop_start w -> dedup_inv M w.
Proof.
  intros [Hs He]. unfold dedup_inv, occurrences, events_for.
  rewrite Hs, He. simpl. lia.
Qed.

Lemma perform_dedup M e w :
  emitted [e] = [] -> dedup_inv M w -> dedup_inv M (snd (perform e w)).
Proof.
  unfold dedup_inv. simpl. intros He H. rewrite events_for_quiet by exact He. exact H.
Qed.

Lemma poll_dedup M sink api config authSession answer w :
  dedup_inv M w -> dedup_inv M (snd (poll sink api config authSession answer w)).
Proof.
  intros H. eapply loop_steps_dedup; [apply poll_request |].
  apply perform_dedup; [reflexivity | exact H].
Qed.

Lemma poll_settled M sink api config authSession answer w :
  has (seenMessageIds w) M = true ->
  let w' := snd (poll sink api config authSession answer w) in
  has (seenMessageIds w') M = true /\ events_for M (trace w') = events_for M (trace w).
Proof.
  intros H w'.
  destruct (loop_steps_settled M _ _ (poll_request sink api config authSession answer w))
    as [H1 E1]; [exact H |].
  split; [exact H1 |]. fold w' in E1. rewrite E1. simpl.
  apply events_for_quiet. reflexivity.
Qed.

Lemma cycles_dedup M sink api config authSession answers w :
  dedup_inv M w -> dedup_inv M (cycles sink api config authSession answers w).
Proof.
  revert w. induction answers as [| answer answers IH]; intros w H; simpl; [exact H |].
  apply IH, poll_dedup, H.
Qed.

Lemma cycles_settled M sink api config authSession answers w :
  has (seenMessageIds w) M = true ->
  let w' := cycles sink api config authSession answers w in
  has (seenMessageIds w') M = true /\ events_for M (trace w') = events_for M (trace w).
Proof.
  revert w. induction answers as [| answer answers IH]; intros w H; simpl; [auto |].
  destruct (poll_settled M sink api config authSession answer w H) as [H1 E1].
  destruct (IH _ H1) as [H2 E2]. split; [exact H2 | congruence].
Qed.

Lemma poll_normal sink api config authSession answer w :
  fst (poll sink api config authSession answer w) = Normal tt.
Proof.
  unfold poll, try_catch.
  destruct (poll_body sink api config authSession answer w) as [[[] | e] w1];
    reflexivity.
Qed.



Lemma poll_frame sink api config authSession answer w :
  let req := build_request config authSession "/api/trpc/loader.chatPanelData"
               no_options in
  let w' := snd (poll sink api config authSession answer w) in
  context w' = context w /\
  timers w' = timers w /\
  (exists ids, seenMessageIds w' = seenMessageIds w ++ ids) /\
  (exists rest, trace w' = trace w ++ FetchCall req :: rest /\ Forall cycle_effect rest).
Proof.
  intros req w'.
  destruct (loop_steps_frame _ _ (poll_request sink api config authSession answer w))
    as (Hc & Ht & [ids Hs] & [rest [Hr Hf]]).
  fold req w' in Hc, Ht, Hs, Hr. simpl in Hc, Ht, Hs, Hr.
  split; [exact Hc |]. split; [exact Ht |].
  split; [exists ids; exact Hs |].
  exists rest. split; [rewrite Hr, <- app_assoc; reflexivity | exact Hf].
Qed.

Lemma only_event (evs : list SyncEvent) (ev : SyncEvent) :
  length evs <= 1 -> In ev evs -> evs = [ev].
Proof.
  destruct evs as [| x [| y evs]]; simpl; intros Hlen HIn.
  - contradiction.
  - destruct HIn as [-> | []]. reflexivity.
  - lia.
Qed.

(** Under the invariant, an id for which an event was emitted is in the
    seen-set. *)
Lemma emitted_seen w ev :
  dedup_inv (ev_messageId ev) w ->
  In ev (emitted (trace w)) ->
  is_primitive (ev_messageId ev) = true ->
  has (seenMessageIds w) (ev_messageId ev) = true.
Proof.
  intros [_ Hle] Hev Hprim.
  destruct (has (seenMessageIds w) (ev_messageId ev)); [reflexivity |].
  assert (HIn : In ev (events_for (ev_messageId ev) (trace w)))
    by (apply events_for_In; auto).
  destruct (events_for (ev_messageId ev) (trace w)); simpl in *; [contradiction | lia].
Qed.

(** ** The seen-set comes first *)

(** C8.  Processing a message whose id is not yet seen puts the id into
    the seen-set whatever happens next: the relevance test may throw, and
    the event sink, which is arbitrary here, may throw on the emission;
    the insertion comes first and is never undone.  Consequently, over
    the life of a loop instance, once the emission of an event was
    attempted (whether or not the sink threw on it), its id is in the
    seen-set, and that attempt is and stays the only one for the id,
    whatever later cycles fetch. *)
Theorem seen_before_emit sink api config authSession chat msg id w answers later w0 ev :
  get (Some msg) "id" = Normal id ->
  has (seenMessageIds w) id = false ->
  loop_start w0 ->
  let w1 := cycles sink api config authSession answers w0 in
  In ev (emitted (trace w1)) ->
  is_primitive (ev_messageId ev) = true ->
  seenMessageIds (snd (process_message sink api chat msg w)) = seenMessageIds w ++ [id] /\
  In (ev_messageId ev) (seenMessageIds w1) /\
  events_for (ev_messageId ev) (trace (cycles sink api config authSession later w1)) = [ev].
Proof.
  intros Hid Hseen Hstart w1 Hev Hprim. split; [| split].
  - unfold process_message, bind, lift, seen_has, seen_add, api_emit, ret.
    rewrite Hid. simpl. rewrite Hseen. simpl. rewrite Hseen.
    destruct (get (Some chat) "type") as [ty | e]; simpl; [| reflexivity].
    destruct (get (Some msg) "mentions") as [ms | e]; simpl; [| reflexivity].
    destruct (includes_opt ms (botUserId api)) as [hasMention | e]; simpl;
      [| reflexivity].
    destruct (is_direct ty || hasMention); simpl; [| reflexivity].
    destruct (get (Some chat) "id") as [chatId | e]; simpl; [| reflexivity].
    destruct (get (Some msg) "senderId") as [senderId | e]; simpl; [| reflexivity].
    destruct (get (Some msg) "content") as [content | e]; simpl; [| reflexivity].
    destruct (sink (emitted (trace w)) _) as [e |]; reflexivity.
  - apply has_In; [exact Hprim |].
    apply emitted_seen; [| exact Hev | exact Hprim].
    apply cycles_dedup, loop_start_dedup, Hstart.
  - assert (Hinv : dedup_inv (ev_messageId ev) w1)
      by apply cycles_dedup, loop_start_dedup, Hstart.
    pose proof (emitted_seen _ _ Hinv Hev Hprim) as Hin.
    destruct (cycles_settled (ev_messageId ev) sink api config authSession later w1 Hin)
      as [_ ->].
    apply only_event; [| apply events_for_In; auto].
    destruct Hinv as [_ Hle]. rewrite Hin in Hle. exact Hle.
Qed.

Lemma seen_before_emit_witness :
  let chat := JObj [("id", JStr "C1"); ("type", JStr "direct")] in
  let a := ok_answer (sample_snapshot "direct" [sample_message "m1"]) in
  let ev := {| ev_channel := "sup-chat"; ev_chatId := Some (JStr "C1");
               ev_messageId := Some (JStr "m1"); ev_senderId := Some (JStr "u1");
               ev_text := Some (JStr "hi"); ev_isDM := true; ev_mentions := None |} in
  let w1 := cycles failing_sink sample_api sample_config "tok" [a] empty_world in
  seenMessageIds (snd (process_message failing_sink sample_api chat (sample_message "m1")
                         empty_world)) = [] ++ [Some (JStr "m1")] /\
  In (Some (JStr "m1")) (seenMessageIds w1) /\
  events_for (Some (JStr "m1"))
    (trace (cycles failing_sink sample_api sample_config "tok" [a; a] w1)) = [ev].
Proof.
  intros chat a ev.
  apply (seen_before_emit failing_sink sample_api sample_config "tok" chat
           (sample_message "m1") (Some (JStr "m1")) empty_world [a] [a; a]
           empty_world ev).
  - reflexivity.
  - reflexivity.
  - split; reflexivity.
  - left. reflexivity.
  - reflexivity.
Defined.

(** A sink that throws on every event: the emission of a direct message
    is attempted once, in the first cycle, which logs the failure; the
    second cycle sees the same snapshot and attempts nothing. *)
Example failed_emission_not_retried :
  let a := ok_answer (sample_snapshot "direct" [sample_message "m1"]) in
  let w1 := snd (poll failing_sink sample_api sample_config "tok" a empty_world) in
  let w2 := snd (poll failing_sink sample_api sample_config "tok" a w1) in
  length (emitted (trace w1)) = 1 /\
  last (trace w1) = Some (LoggerError "[sup-chat] Poll error: sink unavailable") /\
  seenMessageIds w1 = [Some (JStr "m1")] /\
  emitted (trace w2) = emitted (trace w1).
Proof. vm_compute. repeat split. Qed.

(** ** Failures inside a cycle *)




(** ** The relevance filter *)

Lemma is_direct_spec (ty : jsval) :
  is_direct ty = true <-> ty = Some (JStr "direct").
Proof.
  destruct ty as [[| b | n | s | items | members]|]; simpl;
    try (split; [discriminate | intros [=]]).
  rewrite String.eqb_eq. split; [intros -> | intros [= ->]]; reflexivity.
Qed.

Lemma includes_opt_declared (mentions : jsval) (self : option string) :
  mentions_declared mentions ->
  exists b, includes_opt mentions self = Normal b /\
            (b = true <-> mentions_self mentions self).
Proof.
  unfold includes_opt, mentions_self.
  destruct mentions as [[| b | n | s | items | members]|]; intros H;
    simpl in H; try contradiction; cbv beta iota.
  - exists false. split; [reflexivity |].
    split; [discriminate | intros (items & b & [=] & _)].
  - eexists. split; [reflexivity |]. rewrite existsb_exists. split.
    + intros (item & HIn & Hs). apply same_value_zero_eq in Hs as [Hs _].
      destruct self as [b |]; simpl in Hs; [| discriminate].
      injection Hs as ->. exists items, b. auto.
    + intros (items' & b & [= <-] & -> & HIn). exists (JStr b).
      split; [exact HIn |]. simpl. apply String.eqb_refl.
  - exists false. split; [reflexivity |].
    split; [discriminate | intros (items & b & [=] & _)].
Qed.

(** C2.  A message processed for the first time (its id is not in the
    seen-set), with [mentions] absent or an array as the message
    interface declares it, is emitted exactly when its chat's type is
    ["direct"] or the configured identity is among its mentions;
    otherwise, as for a group chat without a mention of self, the cycle
    calls nothing. *)
Theorem relevance_filter sink api chat_members msg_members w :
  let chat := JObj chat_members in
  let msg := JObj msg_members in
  let id := own_property msg_members "id" in
  let chatType := own_property chat_members "type" in
  let mentions := own_property msg_members "mentions" in
  has (seenMessageIds w) id = false ->
  mentions_declared mentions ->
  let w' := snd (process_message sink api chat msg w) in
  (relevant chatType mentions (botUserId api) ->
   trace w' = trace w ++
     [ApiEmit {| ev_channel := "sup-chat";
                 ev_chatId := own_property chat_members "id";
                 ev_messageId := id;
                 ev_senderId := own_property msg_members "senderId";
                 ev_text := own_property msg_members "content";
                 ev_isDM := is_direct chatType;
                 ev_mentions := mentions |}]) /\
  (~ relevant chatType mentions (botUserId api) -> trace w' = trace w).
Proof.
  intros chat msg id chatType mentions Hseen Hdecl w'.
  destruct (includes_opt_declared mentions (botUserId api) Hdecl) as (b & Hinc & Hb).
  assert (Hrel : is_direct chatType || b = true <->
                 relevant chatType mentions (botUserId api)).
  { unfold relevant. rewrite orb_true_iff, is_direct_spec, Hb. reflexivity. }
  subst w'. unfold process_message, bind, lift, seen_has, seen_add, api_emit, ret.
  unfold chat, msg, get. fold id chatType mentions.
  simpl. rewrite Hseen. simpl. rewrite Hinc.
  destruct (is_direct chatType || b) eqn:Hor; simpl.
  - split.
    + intros _. destruct (sink (emitted (trace w)) _); reflexivity.
    + intros Hn. exfalso. apply Hn, Hrel. reflexivity.
  - split.
    + intros Hr. apply Hrel in Hr. discriminate.
    + reflexivity.
Qed.

Lemma relevance_filter_witness :
  let direct := [("id", JStr "C1"); ("type", JStr "direct")] in
  let group := [("id", JStr "C2"); ("type", JStr "group")] in
  let msg := [("id", JStr "m1"); ("senderId", JStr "u1"); ("content", JStr "hi")] in
  emitted (trace (snd (process_message quiet_sink sample_api (JObj direct) (JObj msg)
                         empty_world))) =
    [{| ev_channel := "sup-chat"; ev_chatId := Some (JStr "C1");
        ev_messageId := Some (JStr "m1"); ev_senderId := Some (JStr "u1");
        ev_text := Some (JStr "hi"); ev_isDM := true; ev_mentions := None |}] /\
  trace (snd (process_message quiet_sink sample_api (JObj group) (JObj msg)
                empty_world)) = [].
Proof.
  intros direct group msg. split.
  - destruct (relevance_filter quiet_sink sample_api direct msg empty_world
                eq_refl I) as [Hemit _].
    rewrite Hemit; [reflexivity | left; reflexivity].
  - destruct (relevance_filter quiet_sink sample_api group msg empty_world
                eq_refl I) as [_ Hskip].
    apply Hskip. intros [Hd | (items & b & Hm & _)]; discriminate.
Defined.

(** ** Starting and stopping the gateway *)

Lemma loadAuthSession_ok homedir fs path raw w :
  fs (expand_home homedir path) = File raw ->
  trim raw <> "" ->
  loadAuthSession homedir fs path w =
  (Normal (trim raw),
   {| seenMessageIds := seenMessageIds w; context := context w; timers := timers w;
      trace := trace w ++ [ExistsSync (expand_home homedir path);
                           ReadFileSync (expand_home homedir path)] |}).
Proof.
  intros Hfs Hne. unfold loadAuthSession, try_catch, bind, perform. simpl.
  rewrite Hfs. simpl.
  destruct (String.eqb (trim raw) "") eqn:He.
  - apply String.eqb_eq in He. contradiction.
  - unfold ret. rewrite <- app_assoc. reflexivity.
Qed.

Lemma loadAuthSession_fails homedir fs path w :
  ~ credential_ok homedir fs path ->
  exists e w', loadAuthSession homedir fs path w = (Throw e, w').
Proof.
  intros Hno. unfold loadAuthSession, try_catch, bind, perform. simpl.
  destruct (fs (expand_home homedir path)) as [| e | raw] eqn:Hfs; simpl.
  - eexists _, _. reflexivity.
  - eexists _, _. reflexivity.
  - destruct (String.eqb (trim raw) "") eqn:He; simpl.
    + eexists _, _. reflexivity.
    + exfalso. apply Hno. exists raw. split; [exact Hfs |].
      intros Heq. rewrite Heq in He. discriminate.
Qed.

Lemma start_enabled homedir fs sink api config h first raw w :
  channels_sup_chat api = Some config ->
  enabled config = Some true ->
  fs (expand_home homedir (authSessionPath config)) = File raw ->
  trim raw <> "" ->
  let path := expand_home homedir (authSessionPath config) in
  let interval := default 5000%Z (pollInterval config) in
  let armed :=
    {| seenMessageIds := []; context := context w; timers := {[h]} ∪ timers w;
       trace := trace w ++
         [LoggerInfo "[sup-chat] Starting channel gateway";
          ExistsSync path; ReadFileSync path; SetInterval interval h] |} in
  let polled := snd (poll sink api config (trim raw) first armed) in
  start homedir fs sink api h first w =
  (Normal tt,
   {| seenMessageIds := seenMessageIds polled;
      context := <[interval_key := h]> (context polled);
      timers := timers polled;
      trace := trace polled ++
        [ContextSet interval_key h;
         LoggerInfo ("[sup-chat] Gateway started (polling every "
                       +:+ pretty interval +:+ "ms)")] |}).
Proof.
  intros Hcfg Hen Hfs Hne path interval armed polled.
  unfold start. rewrite Hcfg, Hen. simpl.
  unfold try_catch, bind, logger_info, perform.
  rewrite (loadAuthSession_ok homedir fs _ raw _ Hfs Hne).
  unfold seen_new, set_interval, context_set. simpl.
  rewrite <- !app_assoc. simpl. fold path interval armed.
  pose proof (poll_normal sink api config (trim raw) first armed) as Hn.
  subst polled.
  destruct (poll sink api config (trim raw) first armed) as [c w2].
  simpl in Hn. subst c. simpl. rewrite <- app_assoc. reflexivity.
Qed.




(** C10.  When the channel's configuration block is absent or its
    [enabled] flag is falsy, [gateway.start] returns normally and its
    only effect is one information log line: the credential file is not
    touched, nothing is fetched, no timer is armed, and the seen-set,
    the host context and the timers are unchanged. *)
Theorem start_disabled_is_noop homedir fs sink api h first w :
  channel_disabled api ->
  start homedir fs sink api h first w =
  (Normal tt,
   {| seenMessageIds := seenMessageIds w; context := context w; timers := timers w;
      trace := trace w ++ [LoggerInfo "[sup-chat] Channel disabled, skipping start"] |}).
Proof.
  unfold channel_disabled, start.
  intros [-> | (config & -> & [-> | ->])]; reflexivity.
Qed.

Lemma start_disabled_is_noop_witness :
  let api := {| channels_sup_chat :=
                  Some {| baseUrl := "https://sup.net";
                          authSessionPath := "~/.config/sup/auth_session";
                          clientVersion := None; sessionId := None;
                          pollInterval := None; enabled := Some false |};
                botUserId := Some "bot" |} in
  start "/home/claw" sample_fs quiet_sink api 7%positive
    (ok_answer (sample_snapshot "direct" [sample_message "m1"])) empty_world =
  (Normal tt,
   {| seenMessageIds := []; context := ∅; timers := ∅;
      trace := [LoggerInfo "[sup-chat] Channel disabled, skipping start"] |}).
Proof.
  intros api.
  apply (start_disabled_is_noop "/home/claw" sample_fs quiet_sink api 7%positive
           (ok_answer (sample_snapshot "direct" [sample_message "m1"])) empty_world).
  right. eexists. split; [reflexivity |]. right. reflexivity.
Defined.

(** C9.  [gateway.stop] never throws, and after it the poll-interval
    handle is no longer stored.  A second [stop] right after the first
    cancels no timer and deletes no handle: the host context, the timers
    and the seen-set are unchanged and its only effect is the
    information log line. *)
Theorem stop_twice w :
  let w1 := snd (stop w) in
  fst (stop w) = Normal tt /\
  context w1 !! interval_key = None /\
  stop w1 =
  (Normal tt,
   {| seenMessageIds := seenMessageIds w1; context := context w1; timers := timers w1;
      trace := trace w1 ++ [LoggerInfo "[sup-chat] Gateway stopped"] |}).
Proof.
  intros w1.
  assert (Hnone : context w1 !! interval_key = None).
  { subst w1. unfold stop, bind, context_get. simpl.
    destruct (context w !! interval_key) as [h |] eqn:Hget; simpl.
    - apply lookup_delete_eq.
    - exact Hget. }
  split; [| split; [exact Hnone |]].
  - unfold stop, bind, context_get. simpl.
    destruct (context w !! interval_key); reflexivity.
  - unfold stop, bind, context_get. simpl. rewrite Hnone. reflexivity.
Qed.

(** After a start, the first [stop] cancels the timer and forgets the
    handle, and the second only logs. *)
Example start_then_stop_twice :
  let w0 := snd (start "/home/claw" sample_fs quiet_sink sample_api 7%positive
                   (ok_answer (sample_snapshot "direct" [sample_message "m1"]))
                   empty_world) in
  let w1 := snd (stop w0) in
  let w2 := snd (stop w1) in
  map effect_name (drop (length (trace w0)) (trace w1)) =
    ["clearInterval"; "context.delete"; "logger.info"] /\
  map effect_name (drop (length (trace w1)) (trace w2)) = ["logger.info"].
Proof. vm_compute. split; reflexivity. Qed.

(** ** The outbound path *)

Lemma loadAuthSession_cases homedir fs path w :
  (credential_ok homedir fs path /\
   exists token w', loadAuthSession homedir fs path w = (Normal token, w')) \/
  (~ credential_ok homedir fs path /\
   exists e w', loadAuthSession homedir fs path w = (Throw e, w')).
Proof.
  destruct (fs (expand_home homedir path)) as [| e | raw] eqn:Hfs.
  - right. assert (Hno : ~ credential_ok homedir fs path).
    { intros (raw & Hraw & _). congruence. }
    split; [exact Hno | apply loadAuthSession_fails, Hno].
  - right. assert (Hno : ~ credential_ok homedir fs path).
    { intros (raw & Hraw & _). congruence. }
    split; [exact Hno | apply loadAuthSession_fails, Hno].
  - destruct (String.eqb (trim raw) "") eqn:He.
    + right. assert (Hno : ~ credential_ok homedir fs path).
      { intros (raw' & Hraw & Hne). apply String.eqb_eq in He. congruence. }
      split; [exact Hno | apply loadAuthSession_fails, Hno].
    + left. assert (Hne : trim raw <> "").
      { intros Heq. rewrite Heq in He. discriminate. }
      split; [exists raw; auto |].
      eexists _, _. apply loadAuthSession_ok; [exact Hfs | exact Hne].
Qed.

(** C5.  [sendText] never throws, whatever the configuration, the file
    system, the remote service's answer and the world are.  It returns
    [{ok: true}] exactly when the configuration block is present, the
    credential loads and the request succeeds; any other outcome is a
    [{ok: false, error}] result, with the error ["Sup chat not
    configured"] when the block is missing. *)
Theorem sendText_never_throws homedir fs api ctx now suffix answer w :
  exists result,
    fst (sendText homedir fs api ctx now suffix answer w) = Normal result /\
    (result = SendOk <->
     exists config, channels_sup_chat api = Some config /\
                    credential_ok homedir fs (authSessionPath config) /\
                    request_ok answer) /\
    (result = SendOk \/ exists error, result = SendFailed error) /\
    (channels_sup_chat api = None -> result = SendFailed "Sup chat not configured").
Proof.
  unfold sendText, try_catch.
  destruct (channels_sup_chat api) as [config |] eqn:Hcfg; simpl.
  2: { eexists. split; [reflexivity |]. repeat split.
       - discriminate.
       - intros (config & [=] & _).
       - right. eexists. reflexivity. }
  unfold bind at 1.
  destruct (loadAuthSession_cases homedir fs (authSessionPath config) w)
    as [[Hok (token & w1 & ->)] | [Hno (e & w1 & ->)]].
  2: { simpl. eexists. split; [reflexivity |]. repeat split.
       - discriminate.
       - intros (config' & [= <-] & Hc & _). contradiction.
       - right. eexists. reflexivity.
       - discriminate. }
  unfold sendChatMessage, makeSupRequest, bind, perform, logger_info, logger_error,
    perform, throw, lift, ret.
  destruct answer as [e | [] status statusText [data | e]]; simpl;
    eexists; (split; [reflexivity |]); repeat split;
    try discriminate;
    try (intros (config' & _ & _ & (st & txt & d & [=])));
    try (right; eexists; reflexivity);
    try (left; reflexivity).
  intros _. exists config. repeat split; [exact Hok |]. eexists _, _, _. reflexivity.
Qed.

Lemma sendText_never_throws_witness :
  fst (sendText "/home/claw" sample_fs sample_api
         {| ctx_chatId := "c1"; ctx_senderId := "bot"; ctx_text := "hello";
            ctx_messageId := None |}
         "1700000000000" "k3j9x0q1z" (ok_answer JNull) empty_world) = Normal SendOk.
Proof.
  destruct (sendText_never_throws "/home/claw" sample_fs sample_api
              {| ctx_chatId := "c1"; ctx_senderId := "bot"; ctx_text := "hello";
                 ctx_messageId := None |}
              "1700000000000" "k3j9x0q1z" (ok_answer JNull) empty_world)
    as (result & Hres & Hiff & _).
  rewrite Hres. f_equal. apply Hiff. exists sample_config. split; [reflexivity |].
  split.
  - exists "tok". split; [reflexivity | discriminate].
  - eexists _, _, _. reflexivity.
Defined.

(** The failures of the outbound path, each reported as a result. *)
Example sendText_failures :
  let ctx := {| ctx_chatId := "c1"; ctx_senderId := "bot"; ctx_text := "hello";
                ctx_messageId := None |} in
  let send fs api answer :=
    fst (sendText "/home/claw" fs api ctx "1700000000000" "k3j9x0q1z" answer
           empty_world) in
  send sample_fs {| channels_sup_chat := None; botUserId := None |} (ok_answer JNull) =
    Normal (SendFailed "Sup chat not configured") /\
  send (fun _ => Missing) sample_api (ok_answer JNull) =
    Normal (SendFailed ("Failed to load auth session: Auth session file not found: "
                          +:+ "/home/claw/.config/sup/auth_session")) /\
  send sample_fs sample_api (Response false 500 "Internal Server Error" (Normal JNull)) =
    Normal (SendFailed "API request failed: 500 Internal Server Error") /\
  send sample_fs sample_api (NetworkFailure (TypeError "fetch failed")) =
    Normal (SendFailed "fetch failed").
Proof. vm_compute. repeat split. Qed.

(** C6.  For every chat id and text, whatever the remote service
    answers, [sendChatMessage] issues exactly one request: a POST to the
    message-creation endpoint whose body has [json.content] equal to the
    text, [json.contentData.content] a single paragraph with a single
    text run carrying the text and empty marks, [json.isGenerated] true,
    [json.isPostComment] false and [json.visibility] ["public"]. *)
Theorem send_payload_shape config authSession chatId text mentions now suffix answer w :
  exists req payload,
    trace (snd (sendChatMessage config authSession chatId text mentions now suffix
                  answer w)) = trace w ++ [FetchCall req] /\
    url req = baseUrl config +:+ "/api/trpc/chatMessage.create" /\
    method (init req) = Some "POST" /\
    body (init req) = Some payload /\
    let json := get_opt (Some payload) "json" in
    let contentData := get_opt json "contentData" in
    let paragraph := at_index (get_opt contentData "content") 0 in
    let run := at_index (get_opt paragraph "content") 0 in
    get_opt json "content" = Some (JStr text) /\
    get_opt contentData "content" =
      Some (JArr [JObj [("type", JStr "paragraph");
                        ("content", JArr [JObj [("type", JStr "text");
                                                ("text", JStr text);
                                                ("marks", JArr [])]])]]) /\
    get_opt run "text" = Some (JStr text) /\
    get_opt run "marks" = Some (JArr []) /\
    get_opt json "chatId" = Some (JStr chatId) /\
    get_opt json "isGenerated" = Some (JBool true) /\
    get_opt json "isPostComment" = Some (JBool false) /\
    get_opt json "visibility" = Some (JStr "public").
Proof.
  eexists _, _. split; [| split; [| split; [| split]]].
  - unfold sendChatMessage, makeSupRequest, bind, perform.
    destruct answer as [e | [] status statusText [data | e]]; reflexivity.
  - reflexivity.
  - reflexivity.
  - reflexivity.
  - repeat split.
Qed.

(** ** Request headers *)

Lemma optional_header_lookup name value k :
  optional_header name value !! k =
  if decide (name = k)
  then match value with
       | Some v => if String.eqb v "" then None else Some v
       | None => None
       end
  else None.
Proof.
  unfold optional_header.
  destruct value as [v |]; [destruct (String.eqb v "") |];
    case_decide; subst; try apply lookup_empty.
  - apply lookup_singleton_eq.
  - apply lookup_singleton_ne. assumption.
Qed.

(** C7, as amended.  Caller-supplied headers are all kept, overriding the
    defaults.  Where the caller supplies none under that name: the
    [Cookie] header is [auth_session=<token>], and the
    [x-sup-client-version] header is absent when [clientVersion] is unset
    or the empty string and carries the configured value otherwise. *)
Theorem header_composition config authSession options :
  let hs := request_headers config authSession options in
  headers options ⊆ hs /\
  hs !! "Cookie" =
    Some (default ("auth_session=" +:+ authSession) (headers options !! "Cookie")) /\
  hs !! "x-sup-client-version" =
    match headers options !! "x-sup-client-version" with
    | Some v => Some v
    | None =>
        match clientVersion config with
        | Some v => if String.eqb v "" then None else Some v
        | None => None
        end
    end.
Proof.
  intros hs. subst hs. unfold request_headers, spread. split; [| split].
  - apply map_union_subseteq_l.
  - rewrite !lookup_union, !optional_header_lookup.
    repeat (case_decide; [discriminate |]).
    rewrite lookup_insert_ne by discriminate. rewrite lookup_insert_eq.
    destruct (headers options !! "Cookie"); reflexivity.
  - rewrite !lookup_union, !optional_header_lookup.
    case_decide; [discriminate |]. case_decide; [| congruence].
    rewrite !lookup_insert_ne by discriminate. rewrite lookup_empty.
    destruct (clientVersion config) as [v |]; [destruct (String.eqb v "") |];
      destruct (headers options !! "x-sup-client-version"); reflexivity.
Qed.

(** C7, as stated, fails: [clientVersion] is set, to the empty string,
    the caller supplies no header, and the request carries no
    [x-sup-client-version] header. *)
Lemma empty_client_version_sends_no_header :
  let config := {| baseUrl := "https://sup.net";
                   authSessionPath := "~/.config/sup/auth_session";
                   clientVersion := Some "";
                   sessionId := None; pollInterval := None; enabled := Some true |} in
  clientVersion config = Some "" /\
  headers no_options !! "x-sup-client-version" = None /\
  request_headers config "tok" no_options !! "x-sup-client-version" = None.
Proof. vm_compute. repeat split. Qed.

Example client_version_header :
  request_headers sample_config "tok" no_options !! "x-sup-client-version" = Some "2.0" /\
  request_headers sample_config "tok" no_options !! "Cookie" = Some "auth_session=tok" /\
  request_headers sample_config "tok"
    {| method := None; body := None; headers := {[ "Cookie" := "mine" ]} |} !! "Cookie"
  = Some "mine".
Proof. vm_compute. repeat split. Qed.

(** ** The credential loader *)

Lemma string_app_cons (c : ascii) (s t : string) :
  String c s +:+ t = String c (s +:+ t).
Proof. reflexivity. Qed.

Lemma string_app_nil_r (s : string) : s +:+ "" = s.
Proof.
  induction s as [| c s IH]; [reflexivity |].
  rewrite string_app_cons, IH. reflexivity.
Qed.

Lemma string_app_assoc (a b c : string) : (a +:+ b) +:+ c = a +:+ (b +:+ c).
Proof.
  induction a as [| x a IH]; [reflexivity |].
  rewrite !string_app_cons, IH. reflexivity.
Qed.

Lemma string_rev_app (s t : string) : String.rev_app s t = String.rev s +:+ t.
Proof.
  unfold String.rev. revert t. induction s as [| c s IH]; intros t; simpl.
  - reflexivity.
  - rewrite (IH (String c t)), (IH (String c "")), string_app_assoc. reflexivity.
Qed.

Lemma string_rev_cons (c : ascii) (s : string) :
  String.rev (String c s) = String.rev s +:+ String c "".
Proof. unfold String.rev at 1. simpl. apply string_rev_app. Qed.

Lemma string_rev_append (a b : string) :
  String.rev (a +:+ b) = String.rev b +:+ String.rev a.
Proof.
  induction a as [| c a IH].
  - change (String.rev "") with "". rewrite string_app_nil_r. reflexivity.
  - rewrite string_app_cons, !string_rev_cons, IH, string_app_assoc. reflexivity.
Qed.

Lemma string_rev_involutive (s : string) : String.rev (String.rev s) = s.
Proof.
  induction s as [| c s IH]; [reflexivity |].
  rewrite string_rev_cons, string_rev_append, IH. reflexivity.
Qed.

Lemma string_length_app (a b : string) :
  String.length (a +:+ b) = String.length a + String.length b.
Proof.
  induction a as [| c a IH]; [reflexivity |].
  rewrite string_app_cons. simpl. rewrite IH. reflexivity.
Qed.

Lemma drop_bytes_app (a b : string) : drop_bytes (String.length a) (a +:+ b) = b.
Proof.
  induction a as [| c a IH]; [destruct b; reflexivity |].
  rewrite string_app_cons. simpl. exact IH.
Qed.

Lemma prefix_split (pattern s : string) :
  String.prefix pattern s = true <-> exists rest, s = pattern +:+ rest.
Proof.
  revert s. induction pattern as [| c pattern IH]; intros s.
  - split; [intros _; exists s; reflexivity | intros _; destruct s; reflexivity].
  - destruct s as [| d s]; simpl.
    + split; [discriminate | intros [rest H]; discriminate].
    + destruct (ascii_dec c d) as [-> | Hne].
      * rewrite IH. split; intros [rest H]; exists rest.
        -- rewrite string_app_cons, <- H. reflexivity.
        -- rewrite string_app_cons in H. congruence.
      * split; [discriminate |].
        intros [rest H]. rewrite string_app_cons in H. congruence.
Qed.

Lemma leading_Some (patterns : list string) (s pattern : string) :
  leading patterns s = Some pattern ->
  In pattern patterns /\ exists rest, s = pattern +:+ rest.
Proof.
  unfold leading. intros H. apply List.find_some in H as [HIn Hp].
  split; [exact HIn | apply prefix_split, Hp].
Qed.

Lemma leading_None (patterns : list string) (s pattern rest : string) :
  leading patterns s = None -> In pattern patterns -> s <> pattern +:+ rest.
Proof.
  unfold leading. intros H HIn Heq.
  pose proof (List.find_none _ _ H pattern HIn) as Hp. simpl in Hp.
  assert (Ht : String.prefix pattern s = true) by (apply prefix_split; eauto).
  congruence.
Qed.

(** With enough fuel nothing is left to strip, as long as no pattern is
    empty. *)
Lemma strip_done (patterns : list string) (fuel : nat) (s : string) :
  Forall (fun pattern => pattern <> "") patterns ->
  String.length s <= fuel ->
  leading patterns (strip patterns fuel s) = None.
Proof.
  intros Hne. revert s. induction fuel as [| fuel IH]; intros s Hlen; simpl.
  - destruct s; [| simpl in Hlen; lia].
    unfold leading. destruct (List.find _ patterns) as [pattern |] eqn:Hfind;
      [| reflexivity].
    apply List.find_some in Hfind as [HIn Hp].
    rewrite Forall_forall in Hne. specialize (Hne pattern).
    destruct pattern; [exfalso; apply Hne; [apply list_elem_of_In; exact HIn | reflexivity]
                      | discriminate].
  - destruct (leading patterns s) as [pattern |] eqn:Hlead; [| exact Hlead].
    apply leading_Some in Hlead as [HIn [rest ->]].
    rewrite drop_bytes_app. apply IH.
    rewrite string_length_app in Hlen.
    rewrite Forall_forall in Hne.
    assert (pattern <> "") by (apply Hne, list_elem_of_In, HIn).
    destruct pattern; [congruence | simpl in Hlen; lia].
Qed.

Lemma strip_suffix (patterns : list string) (fuel : nat) (s : string) :
  exists front, s = front +:+ strip patterns fuel s.
Proof.
  revert s. induction fuel as [| fuel IH]; intros s; simpl.
  - exists "". reflexivity.
  - destruct (leading patterns s) as [pattern |] eqn:Hlead; [| exists ""; reflexivity].
    apply leading_Some in Hlead as [_ [rest ->]].
    rewrite drop_bytes_app. destruct (IH rest) as [front Hfront].
    exists (pattern +:+ front). rewrite string_app_assoc, <- Hfront. reflexivity.
Qed.

Lemma string_length_rev (s : string) : String.length (String.rev s) = String.length s.
Proof.
  induction s as [| c s IH]; [reflexivity |].
  rewrite string_rev_cons, string_length_app, IH. simpl. lia.
Qed.

Lemma white_space_not_empty :
  Forall (fun pattern => pattern <> "") white_space /\
  Forall (fun pattern => pattern <> "") (map String.rev white_space).
Proof. split; repeat constructor; discriminate. Qed.

Lemma trim_trimmed (s : string) : trimmed (trim s).
Proof.
  unfold trim, trim_end, trim_start.
  set (t := strip white_space (String.length s) s).
  set (u := strip (map String.rev white_space) (String.length t) (String.rev t)).
  assert (Ht : leading white_space t = None).
  { apply strip_done; [apply white_space_not_empty | reflexivity]. }
  assert (Hu : leading (map String.rev white_space) u = None).
  { apply strip_done; [apply white_space_not_empty |].
    rewrite string_length_rev. reflexivity. }
  split.
  - intros space rest HIn Heq.
    destruct (strip_suffix (map String.rev white_space) (String.length t) (String.rev t))
      as [front Hfront]. fold u in Hfront.
    apply (leading_None white_space t space (rest +:+ String.rev front) Ht HIn).
    rewrite <- (string_rev_involutive t), Hfront, string_rev_append, Heq.
    apply string_app_assoc.
  - intros space front HIn Heq.
    apply (leading_None _ u (String.rev space) (String.rev front) Hu).
    + apply List.in_map, HIn.
    + rewrite <- (string_rev_involutive u), Heq, string_rev_append. reflexivity.
Qed.

Lemma fetched_app (t1 t2 : list effect) :
  fetched (t1 ++ t2) = fetched t1 ++ fetched t2.
Proof.
  induction t1 as [| e t1 IH]; simpl; [reflexivity |].
  destruct e; simpl; rewrite IH; reflexivity.
Qed.

(** A failed load, in full: why it failed, and what was asked of the
    file system. *)
Lemma loadAuthSession_throws homedir fs path w :
  ~ credential_ok homedir fs path ->
  let shown := expand_home homedir path in
  loadAuthSession homedir fs path w =
  (Throw (Error ("Failed to load auth session: " +:+
                 match fs shown with
                 | Missing => "Auth session file not found: " +:+ shown
                 | Unreadable e => message e
                 | File _ => "Auth session file is empty: " +:+ shown
                 end)),
   {| seenMessageIds := seenMessageIds w; context := context w; timers := timers w;
      trace := trace w ++ ExistsSync shown ::
                 match fs shown with
                 | Missing => []
                 | _ => [ReadFileSync shown]
                 end |}).
Proof.
  intros Hno shown. unfold loadAuthSession, try_catch, bind, perform, throw. simpl.
  fold shown.
  destruct (fs shown) as [| e | raw] eqn:Hfs; simpl.
  - reflexivity.
  - rewrite <- app_assoc. reflexivity.
  - destruct (String.eqb (trim raw) "") eqn:He; simpl.
    + rewrite <- app_assoc. reflexivity.
    + exfalso. apply Hno. exists raw. split; [exact Hfs |].
      intros Heq. rewrite Heq in He. discriminate.
Qed.

(** X1.  A loaded credential is never empty and neither starts nor ends
    with a white-space character or line terminator, Unicode ones and
    the byte-order mark included: it is the content of the file at the
    expanded path, trimmed.  Loading asks whether the file exists and
    then reads it, and does nothing else. *)
Theorem loadAuthSession_token homedir fs path w token w' :
  loadAuthSession homedir fs path w = (Normal token, w') ->
  token <> "" /\ trimmed token /\
  (exists raw, fs (expand_home homedir path) = File raw /\ token = trim raw) /\
  trace w' = trace w ++ [ExistsSync (expand_home homedir path);
                         ReadFileSync (expand_home homedir path)].
Proof.
  intros Hload.
  destruct (loadAuthSession_cases homedir fs path w)
    as [[(raw & Hfs & Hne) _] | [_ (e & w1 & Hthrow)]].
  - rewrite (loadAuthSession_ok homedir fs path raw w Hfs Hne) in Hload.
    injection Hload as <- <-. simpl.
    split; [exact Hne |]. split; [apply trim_trimmed |].
    split; [exists raw; auto | reflexivity].
  - rewrite Hthrow in Hload. discriminate.
Qed.

Lemma loadAuthSession_token_witness :
  "tok" <> "" /\ trimmed "tok" /\
  (exists raw, padded_fs (expand_home "/home/claw" "~/.config/sup/auth_session") = File raw /\
               "tok" = trim raw) /\
  trace {| seenMessageIds := []; context := ∅; timers := ∅;
           trace := [ExistsSync "/home/claw/.config/sup/auth_session";
                     ReadFileSync "/home/claw/.config/sup/auth_session"] |} =
  trace empty_world ++
    [ExistsSync (expand_home "/home/claw" "~/.config/sup/auth_session");
     ReadFileSync (expand_home "/home/claw" "~/.config/sup/auth_session")].
Proof.
  apply (loadAuthSession_token "/home/claw" padded_fs "~/.config/sup/auth_session"
           empty_world "tok").
  reflexivity.
Defined.

(** The home directory is read as a replacement text and only a leading
    [~] is replaced; the byte-order mark and the no-break space are
    trimmed like blanks and line feeds. *)
Example expand_home_and_trim :
  expand_home "/home/claw" "~/.config/sup/auth_session" =
    "/home/claw/.config/sup/auth_session" /\
  expand_home "/home/claw" "/etc/~sup" = "/etc/~sup" /\
  expand_home "/home/a$&b$$c$'d$1" "~/x" = "/home/a~b$c/xd$1/x" /\
  trim padded_content = "tok" /\
  trim (bytes [239; 187; 191; 32; 10]) = "".
Proof. vm_compute. repeat split. Qed.

(** X2.  When the credential cannot be loaded (the file is missing,
    cannot be read, or is empty once trimmed), the loader throws an
    [Error] whose message is ["Failed to load auth session: "] followed
    by the reason.  A missing file is never read, an existing one is read
    once; no request is issued and the seen-set, the host context and
    the timers are untouched. *)
Theorem loadAuthSession_failure homedir fs path w :
  ~ credential_ok homedir fs path ->
  let shown := expand_home homedir path in
  let w' := snd (loadAuthSession homedir fs path w) in
  fst (loadAuthSession homedir fs path w) =
    Throw (Error ("Failed to load auth session: " +:+
                  match fs shown with
                  | Missing => "Auth session file not found: " +:+ shown
                  | Unreadable e => message e
                  | File _ => "Auth session file is empty: " +:+ shown
                  end)) /\
  seenMessageIds w' = seenMessageIds w /\
  context w' = context w /\
  timers w' = timers w /\
  fetched (trace w') = fetched (trace w) /\
  (fs shown = Missing <-> trace w' = trace w ++ [ExistsSync shown]) /\
  (fs shown <> Missing <-> trace w' = trace w ++ [ExistsSync shown; ReadFileSync shown]).
Proof.
  intros Hno shown w'. subst w'.
  rewrite (loadAuthSession_throws homedir fs path w Hno). fold shown. simpl.
  split; [reflexivity |]. split; [reflexivity |]. split; [reflexivity |].
  split; [reflexivity |]. split; [| split].
  - rewrite fetched_app. destruct (fs shown); simpl; apply app_nil_r.
  - destruct (fs shown); split; try discriminate; try reflexivity;
      intros H; apply app_inv_head in H; discriminate.
  - destruct (fs shown); split; try discriminate; try reflexivity; try congruence;
      intros H; apply app_inv_head in H; discriminate.
Qed.

Lemma loadAuthSession_failure_witness :
  fst (loadAuthSession "/home/claw" (fun _ => Missing) "~/.config/sup/auth_session"
         empty_world) =
    Throw (Error ("Failed to load auth session: Auth session file not found: "
                    +:+ "/home/claw/.config/sup/auth_session")).
Proof.
  apply (loadAuthSession_failure "/home/claw" (fun _ => Missing)
           "~/.config/sup/auth_session" empty_world).
  intros (raw & Hfs & _). discriminate.
Defined.

(** ** The request client *)

(** X3.  Whatever the remote service answers, [makeSupRequest] issues
    exactly one request, to the base URL followed by the endpoint, with
    the caller's method and body, and touches nothing else.  It returns
    the decoded body of a successful response; a response that is not
    ok throws ["API request failed: <status> <statusText>"] without its
    body being decoded, and a network or decoding failure is thrown on
    as it is. *)
Theorem makeSupRequest_outcome config authSession endpoint options answer w :
  let req := build_request config authSession endpoint options in
  let w' := snd (makeSupRequest config authSession endpoint options answer w) in
  url req = baseUrl config +:+ endpoint /\
  method (init req) = method options /\
  body (init req) = body options /\
  trace w' = trace w ++ [FetchCall req] /\
  seenMessageIds w' = seenMessageIds w /\ context w' = context w /\
  timers w' = timers w /\
  fst (makeSupRequest config authSession endpoint options answer w) =
    match answer with
    | NetworkFailure e => Throw e
    | Response false status statusText _ =>
        Throw (Error ("API request failed: " +:+ pretty status +:+ " " +:+ statusText))
    | Response true _ _ decoded => decoded
    end.
Proof.
  intros req w'. subst w'. unfold makeSupRequest, bind, perform, throw, lift.
  fold req. destruct answer as [e | [] status statusText decoded]; simpl;
    repeat split; reflexivity.
Qed.

(** X4.  The [Content-Type] header is [application/json] unless the
    caller supplies one; the [x-sup-session-id] header is the caller's
    if supplied, else the configured session id when that is set and
    not empty, else absent.  A request carries no header besides the
    caller's, [Cookie], [Content-Type] and the two optional headers, each
    of the latter only when configured with a non-empty value. *)
Theorem request_headers_names config authSession options :
  let hs := request_headers config authSession options in
  hs !! "Content-Type" =
    Some (default "application/json" (headers options !! "Content-Type")) /\
  hs !! "x-sup-session-id" =
    match headers options !! "x-sup-session-id" with
    | Some v => Some v
    | None =>
        match sessionId config with
        | Some v => if String.eqb v "" then None else Some v
        | None => None
        end
    end /\
  forall name,
    is_Some (hs !! name) ->
    is_Some (headers options !! name) \/
    name = "Cookie" \/ name = "Content-Type" \/
    (name = "x-sup-client-version" /\ exists v, clientVersion config = Some v /\ v <> "") \/
    (name = "x-sup-session-id" /\ exists v, sessionId config = Some v /\ v <> "").
Proof.
  intros hs. subst hs. unfold request_headers, spread. split; [| split].
  - rewrite !lookup_union, !optional_header_lookup.
    repeat (case_decide; [discriminate |]).
    rewrite lookup_insert_eq.
    destruct (headers options !! "Content-Type"); reflexivity.
  - rewrite !lookup_union, !optional_header_lookup.
    case_decide; [| congruence]. case_decide; [discriminate |].
    rewrite !lookup_insert_ne by discriminate. rewrite lookup_empty.
    destruct (sessionId config) as [v |]; [destruct (String.eqb v "") |];
      destruct (headers options !! "x-sup-session-id"); reflexivity.
  - intros name. rewrite !lookup_union, !optional_header_lookup.
    destruct (headers options !! name) as [v |]; [left; eexists; reflexivity |].
    intros Hsome. right.
    destruct (decide (name = "Cookie")) as [-> | Hc]; [auto |].
    destruct (decide (name = "Content-Type")) as [-> | Ht]; [auto |].
    rewrite !lookup_insert_ne, lookup_empty in Hsome by congruence.
    right. right.
    repeat case_decide; subst.
    + discriminate.
    + right. split; [reflexivity |].
      destruct (sessionId config) as [v |]; [| destruct Hsome; discriminate].
      exists v. split; [reflexivity |]. intros ->. destruct Hsome; discriminate.
    + left. split; [reflexivity |].
      destruct (clientVersion config) as [v |]; [| destruct Hsome; discriminate].
      exists v. split; [reflexivity |]. intros ->. destruct Hsome; discriminate.
    + destruct Hsome; discriminate.
Qed.

(** X5.  [searchUserData] is one request without method or body to
    [/api/trpc/userData.searchAll]; the [?input=] parameter is appended
    only for a non-empty query, so an empty query issues the very
    request of an omitted one. *)
Theorem searchUserData_query encode_query config authSession query answer w :
  let endpoint :=
    match query with
    | Some q => if String.eqb q "" then "/api/trpc/userData.searchAll"
                else "/api/trpc/userData.searchAll?input=" +:+ encode_query q
    | None => "/api/trpc/userData.searchAll"
    end in
  searchUserData encode_query config authSession query answer w =
    makeSupRequest config authSession endpoint no_options answer w /\
  searchUserData encode_query config authSession (Some "") answer w =
    searchUserData encode_query config authSession None answer w /\
  fetched (trace (snd (searchUserData encode_query config authSession query answer w))) =
    fetched (trace w) ++
    [{| url := baseUrl config +:+ endpoint;
        init := {| method := None; body := None;
                   headers := request_headers config authSession no_options |} |}].
Proof.
  intros endpoint. subst endpoint. unfold searchUserData. split; [| split].
  - destruct query as [q |]; [destruct (String.eqb q "") |]; reflexivity.
  - reflexivity.
  - destruct query as [q |]; [destruct (String.eqb q "") |];
      unfold makeSupRequest, bind, perform;
      destruct answer as [e | [] status statusText decoded]; simpl;
      rewrite fetched_app; reflexivity.
Qed.

(** ** Account resolution *)

Lemma own_property_cons k v rest key :
  own_property ((k, v) :: rest) key =
  match own_property rest key with
  | Some later => Some later
  | None => if String.eqb k key then Some v else None
  end.
Proof. reflexivity. Qed.

Lemma resolveAccount_enabled cfg accountId channels members :
  get cfg "channels" = Normal channels ->
  get_opt channels "sup-chat" = Some (JObj members) ->
  exists account,
    resolveAccount cfg accountId = Normal account /\
    get_opt (Some account) "enabled" = own_property members "enabled".
Proof.
  intros Hcfg Hblock. unfold resolveAccount. rewrite Hcfg, Hblock.
  eexists. split; [reflexivity |].
  unfold get_opt, spread_members. rewrite own_property_cons.
  destruct (own_property members "enabled"); reflexivity.
Qed.

(** X6.  With an object as channel block, [resolveAccount] never throws
    and returns the block's keys unchanged, plus [accountId]: the
    block's own [accountId] if it has one (the spread comes last and
    overrides), else the requested id, else ["default"] when the
    requested id is undefined or null. *)
Theorem resolveAccount_fields cfg accountId channels members :
  get cfg "channels" = Normal channels ->
  get_opt channels "sup-chat" = Some (JObj members) ->
  let requested :=
    match accountId with
    | None | Some JNull => JStr "default"
    | Some a => a
    end in
  exists account,
    resolveAccount cfg accountId = Normal account /\
    get_opt (Some account) "accountId" =
      Some (default requested (own_property members "accountId")) /\
    (forall key, key <> "accountId" ->
                 get_opt (Some account) key = own_property members key).
Proof.
  intros Hcfg Hblock requested. unfold resolveAccount. rewrite Hcfg, Hblock.
  eexists. split; [reflexivity |].
  unfold get_opt, spread_members. fold requested. split.
  - rewrite own_property_cons.
    destruct (own_property members "accountId"); reflexivity.
  - intros key Hkey. rewrite own_property_cons.
    destruct (own_property members key); [reflexivity |].
    destruct (String.eqb "accountId" key) eqn:He; [| reflexivity].
    apply String.eqb_eq in He. congruence.
Qed.

Lemma resolveAccount_fields_witness :
  let block := [("baseUrl", JStr "https://sup.net"); ("accountId", JStr "ops")] in
  let cfg := Some (JObj [("channels", JObj [("sup-chat", JObj block)])]) in
  exists account,
    resolveAccount cfg (Some (JStr "default")) = Normal account /\
    get_opt (Some account) "accountId" = Some (JStr "ops") /\
    (forall key, key <> "accountId" ->
                 get_opt (Some account) key = own_property block key).
Proof.
  intros block cfg.
  apply (resolveAccount_fields cfg (Some (JStr "default"))
           (Some (JObj [("sup-chat", JObj block)])) block).
  - reflexivity.
  - reflexivity.
Defined.

(** X7.  With an object as channel block, [listAccountIds] lists the
    single account ["default"] exactly when the account [resolveAccount]
    returns is enabled (its [enabled] is truthy), and lists nothing
    otherwise. *)
Theorem listed_accounts_resolve cfg accountId channels members :
  get cfg "channels" = Normal channels ->
  get_opt channels "sup-chat" = Some (JObj members) ->
  exists ids account,
    listAccountIds cfg = Normal ids /\
    resolveAccount cfg accountId = Normal account /\
    (ids = ["default"] \/ ids = []) /\
    (ids = ["default"] <-> truthy (get_opt (Some account) "enabled") = true).
Proof.
  intros Hcfg Hblock.
  destruct (resolveAccount_enabled cfg accountId channels members Hcfg Hblock)
    as (account & Hres & Hen).
  unfold listAccountIds. rewrite Hcfg, Hblock.
  change (get_opt (Some (JObj members)) "enabled") with (own_property members "enabled").
  destruct (truthy (own_property members "enabled")) eqn:Htruthy.
  - exists ["default"], account. rewrite Hen. repeat split; auto.
  - exists [], account. rewrite Hen, Htruthy. repeat split; auto; discriminate.
Qed.

Lemma listed_accounts_resolve_witness :
  let block := [("baseUrl", JStr "https://sup.net"); ("enabled", JBool true)] in
  let cfg := Some (JObj [("channels", JObj [("sup-chat", JObj block)])]) in
  exists ids account,
    listAccountIds cfg = Normal ids /\
    resolveAccount cfg None = Normal account /\
    (ids = ["default"] \/ ids = []) /\
    (ids = ["default"] <-> truthy (get_opt (Some account) "enabled") = true).
Proof.
  intros block cfg.
  apply (listed_accounts_resolve cfg None (Some (JObj [("sup-chat", JObj block)])) block).
  - reflexivity.
  - reflexivity.
Defined.

(** ** Properties kept by every computation of the loop *)

Lemma keeps_ret I {A} (a : A) : keeps I (ret a).
Proof. intros w H. exact H. Qed.

Lemma keeps_throw I {A} (e : exn) : keeps I (@throw A e).
Proof. intros w H. exact H. Qed.

Lemma keeps_lift I {A} (c : completion A) : keeps I (lift c).
Proof. intros w H. exact H. Qed.

Lemma keeps_bind I {A B} (m : js A) (k : A -> js B) :
  keeps I m -> (forall a, keeps I (k a)) -> keeps I (bind m k).
Proof.
  intros Hm Hk w H. unfold bind. specialize (Hm w H).
  destruct (m w) as [[a | e] w1]; simpl in *; [apply Hk, Hm | exact Hm].
Qed.

Lemma keeps_try_catch I {A} (body : js A) (handler : exn -> js A) :
  keeps I body -> (forall e, keeps I (handler e)) -> keeps I (try_catch body handler).
Proof.
  intros Hb Hh w H. unfold try_catch. specialize (Hb w H).
  destruct (body w) as [[a | e] w1]; simpl in *; [exact Hb | apply Hh, Hb].
Qed.

Lemma keeps_for_of I {A} (xs : list A) (body : A -> js unit) :
  (forall x, keeps I (body x)) -> keeps I (for_of xs body).
Proof.
  intros Hbody. induction xs as [| x xs IH]; simpl.
  - apply keeps_ret.
  - apply keeps_bind; [apply Hbody | intros _; exact IH].
Qed.

(** A call that is not an emission keeps every property of the events
    emitted. *)
Lemma keeps_perform (P : list SyncEvent -> Prop) (e : effect) :
  emitted [e] = [] -> keeps (fun w => P (emitted (trace w))) (perform e).
Proof.
  intros He w H. simpl. rewrite emitted_app, He, app_nil_r. exact H.
Qed.

Lemma process_message_relevant sink api chat msg :
  keeps (fun w => Forall (relevant_event (botUserId api)) (emitted (trace w)))
    (process_message sink api chat msg).
Proof.
  intros w H. unfold process_message, bind, lift, seen_has, seen_add, api_emit, ret.
  destruct (get (Some msg) "id") as [id | e]; simpl; [| exact H].
  destruct (has (seenMessageIds w) id); simpl; [exact H |].
  destruct (get (Some chat) "type") as [ty | e]; simpl; [| exact H].
  destruct (get (Some msg) "mentions") as [ms | e]; simpl; [| exact H].
  destruct (includes_opt ms (botUserId api)) as [hasMention | e] eqn:Hinc; simpl;
    [| exact H].
  destruct (is_direct ty || hasMention) eqn:Hor; simpl; [| exact H].
  destruct (get (Some chat) "id") as [chatId | e]; simpl; [| exact H].
  destruct (get (Some msg) "senderId") as [senderId | e]; simpl; [| exact H].
  destruct (get (Some msg) "content") as [content | e]; simpl; [| exact H].
  assert (Hnew : forall ev, ev_channel ev = "sup-chat" ->
                            ev_isDM ev = is_direct ty -> ev_mentions ev = ms ->
                            Forall (relevant_event (botUserId api))
                              (emitted (trace w ++ [ApiEmit ev]))).
  { intros ev Hch Hdm Hms. rewrite emitted_app. apply Forall_app. split; [exact H |].
    constructor; [| constructor]. split; [exact Hch |].
    rewrite Hdm, Hms, Hinc. apply orb_true_iff in Hor as [Hd | ->]; auto. }
  destruct (sink (emitted (trace w)) _) as [e |]; simpl; apply Hnew; reflexivity.
Qed.

Lemma poll_relevant sink api config authSession answer :
  keeps (fun w => Forall (relevant_event (botUserId api)) (emitted (trace w)))
    (poll sink api config authSession answer).
Proof.
  unfold poll, poll_body, fetchChatPanelData, makeSupRequest, logger_error.
  apply keeps_try_catch.
  - apply keeps_bind.
    + apply keeps_bind; [apply (keeps_perform (Forall _)); reflexivity |].
      intros _. destruct answer as [e | ok status statusText decoded];
        [apply keeps_throw |].
      destruct (negb ok); [apply keeps_throw | apply keeps_lift].
    + intros data. unfold process_snapshot.
      destruct (truthy (snapshot_chats data)); [| apply keeps_ret].
      apply keeps_bind; [apply keeps_lift |]. intros chats.
      apply keeps_for_of. intros chat. unfold process_chat.
      apply keeps_bind; [apply keeps_lift |]. intros messages.
      destruct (truthy messages); [| apply keeps_ret].
      apply keeps_bind; [apply keeps_lift |]. intros msgs.
      apply keeps_for_of. intros msg. apply process_message_relevant.
  - intros e. apply (keeps_perform (Forall _)). reflexivity.
Qed.

(** X8.  Over any run of the loop, with any event sink and any answers
    of the remote service, every event handed to the sink is on channel
    ["sup-chat"] and passed the relevance test: it is flagged as a
    direct message, or the configured identity is included in its
    mentions. *)
Theorem only_relevant_events sink api config authSession answers w :
  Forall (relevant_event (botUserId api)) (emitted (trace w)) ->
  Forall (relevant_event (botUserId api))
    (emitted (trace (cycles sink api config authSession answers w))).
Proof.
  revert w. induction answers as [| answer answers IH]; intros w H; simpl; [exact H |].
  apply IH, poll_relevant, H.
Qed.

Lemma only_relevant_events_witness :
  let a := ok_answer (sample_snapshot "direct" [sample_message "m1"; sample_message "m2"]) in
  Forall (relevant_event (Some "bot"))
    (emitted (trace (cycles quiet_sink sample_api sample_config "tok" [a; a] empty_world))).
Proof.
  intros a.
  apply (only_relevant_events quiet_sink sample_api sample_config "tok" [a; a] empty_world).
  constructor.
Defined.

(** ** What a run of the loop does and does not do *)

Lemma cycle_effects_no_fetch (rest : list effect) :
  Forall cycle_effect rest -> fetched rest = [] /\ Forall loop_effect rest.
Proof.
  induction 1 as [| e rest He _ [IH1 IH2]]; [split; constructor |].
  destruct e; simpl in He; try contradiction; simpl; split; auto; constructor; simpl; auto.
Qed.

(** X9.  A run of the loop issues exactly one request per cycle, always
    the same one, whatever happens in the cycles (no retry, no skipped
    cycle).  Besides requests it only emits events and logs errors: it
    never touches the host context or the timers, and it never removes
    an id from the seen-set. *)
Theorem cycles_frame sink api config authSession answers w :
  let req := build_request config authSession "/api/trpc/loader.chatPanelData"
               no_options in
  let w' := cycles sink api config authSession answers w in
  context w' = context w /\
  timers w' = timers w /\
  (exists ids, seenMessageIds w' = seenMessageIds w ++ ids) /\
  (exists calls, trace w' = trace w ++ calls /\ Forall loop_effect calls) /\
  fetched (trace w') = fetched (trace w) ++ replicate (length answers) req.
Proof.
  intros req. revert w. induction answers as [| answer answers IH]; intros w; simpl.
  - repeat split; try (exists []; rewrite app_nil_r; auto).
    rewrite app_nil_r. reflexivity.
  - destruct (poll_frame sink api config authSession answer w)
      as (Hc & Ht & [ids Hs] & [rest [Hr Hf]]).
    fold req in Hr.
    destruct (IH (snd (poll sink api config authSession answer w)))
      as (Hc' & Ht' & [ids' Hs'] & [calls [Hr' Hf']] & Hfetch).
    destruct (cycle_effects_no_fetch rest Hf) as [Hnone Hloop].
    split; [congruence |]. split; [congruence |].
    split; [exists (ids ++ ids'); rewrite Hs', Hs, app_assoc; reflexivity |].
    split.
    + exists ((FetchCall req :: rest) ++ calls). split.
      * rewrite Hr', Hr, app_assoc. reflexivity.
      * apply Forall_app. split; [constructor; [exact I | exact Hloop] | exact Hf'].
    + rewrite Hfetch, Hr, fetched_app. simpl. rewrite Hnone, <- app_assoc. reflexivity.
Qed.

(** X10.  A decoded answer without chats ([result], [data] or [chats]
    missing, or [chats] falsy) is not an error: the cycle is its request
    and nothing else, not even a log line. *)
Theorem poll_without_chats sink api config authSession status statusText data w :
  truthy (snapshot_chats data) = false ->
  poll sink api config authSession (Response true status statusText (Normal data)) w =
  (Normal tt,
   {| seenMessageIds := seenMessageIds w; context := context w; timers := timers w;
      trace := trace w ++
        [FetchCall (build_request config authSession "/api/trpc/loader.chatPanelData"
                      no_options)] |}).
Proof.
  intros Hno.
  unfold poll, try_catch, poll_body, fetchChatPanelData, makeSupRequest, bind, perform,
    lift, process_snapshot.
  simpl. rewrite Hno. reflexivity.
Qed.

Lemma poll_without_chats_witness :
  poll quiet_sink sample_api sample_config "tok" (Response true 200 "OK" (Normal (JObj [])))
    empty_world =
  (Normal tt,
   {| seenMessageIds := []; context := ∅; timers := ∅;
      trace := [] ++
        [FetchCall (build_request sample_config "tok" "/api/trpc/loader.chatPanelData"
                      no_options)] |}).
Proof.
  apply (poll_without_chats quiet_sink sample_api sample_config "tok" 200 "OK" (JObj [])
           empty_world).
  reflexivity.
Defined.

(** X11.  A decoded answer whose [chats] is truthy but cannot be
    iterated (an object, a number, [true]) fails the cycle before any
    message is looked at: the cycle is its request and one logged poll
    error, the seen-set is unchanged, and the poll itself returns
    normally. *)
Theorem poll_chats_not_iterable sink api config authSession status statusText data e w :
  truthy (snapshot_chats data) = true ->
  iterate "data.result.data.chats" (snapshot_chats data) = Throw e ->
  poll sink api config authSession (Response true status statusText (Normal data)) w =
  (Normal tt,
   {| seenMessageIds := seenMessageIds w; context := context w; timers := timers w;
      trace := trace w ++
        [FetchCall (build_request config authSession "/api/trpc/loader.chatPanelData"
                      no_options);
         LoggerError ("[sup-chat] Poll error: " +:+ message e)] |}).
Proof.
  intros Hyes Hiter.
  unfold poll, try_catch, poll_body, fetchChatPanelData, makeSupRequest, bind, perform,
    lift, process_snapshot, logger_error, perform.
  simpl. rewrite Hyes, Hiter. simpl. rewrite <- app_assoc. reflexivity.
Qed.

Lemma poll_chats_not_iterable_witness :
  let data := JObj [("result", JObj [("data", JObj [("chats", JObj [])])])] in
  poll quiet_sink sample_api sample_config "tok" (Response true 200 "OK" (Normal data))
    empty_world =
  (Normal tt,
   {| seenMessageIds := []; context := ∅; timers := ∅;
      trace := [] ++
        [FetchCall (build_request sample_config "tok" "/api/trpc/loader.chatPanelData"
                      no_options);
         LoggerError "[sup-chat] Poll error: data.result.data.chats is not iterable"] |}).
Proof.
  intros data.
  apply (poll_chats_not_iterable quiet_sink sample_api sample_config "tok" 200 "OK" data
           (TypeError "data.result.data.chats is not iterable") empty_world).
  - reflexivity.
  - reflexivity.
Defined.

#[local] Arguments get_opt : simpl never.

(** ** A snapshot seen again *)

Lemma get_get_opt (v : jsval) (key : string) (x : jsval) :
  get v key = Normal x -> x = get_opt v key.
Proof.
  unfold get, get_opt.
  destruct v as [[| b | n | s | items | members]|]; intros [=]; congruence.
Qed.

Lemma process_message_settles sink api chat msg w :
  fst (process_message sink api chat msg w) = Normal tt ->
  is_primitive (get_opt (Some msg) "id") = true ->
  exists id, get (Some msg) "id" = Normal id /\
             has (seenMessageIds (snd (process_message sink api chat msg w))) id = true.
Proof.
  intros Hnormal Hprim.
  unfold process_message, bind, lift, seen_has, seen_add, api_emit, ret in *.
  destruct (get (Some msg) "id") as [id | e] eqn:Hid; simpl in *; [| discriminate].
  rewrite <- (get_get_opt _ _ _ Hid) in Hprim.
  exists id. split; [reflexivity |].
  destruct (has (seenMessageIds w) id) eqn:Hseen; simpl in *; [exact Hseen |].
  rewrite Hseen in *.
  assert (Hadded : has (seenMessageIds w ++ [id]) id = true).
  { rewrite has_app, same_value_zero_refl by exact Hprim. apply orb_true_r. }
  destruct (get (Some chat) "type") as [ty | e]; simpl in *; [| exact Hadded].
  destruct (get (Some msg) "mentions") as [ms | e]; simpl in *; [| exact Hadded].
  destruct (includes_opt ms (botUserId api)) as [hasMention | e]; simpl in *;
    [| exact Hadded].
  destruct (is_direct ty || hasMention); simpl in *; [| exact Hadded].
  destruct (get (Some chat) "id") as [chatId | e]; simpl in *; [| exact Hadded].
  destruct (get (Some msg) "senderId") as [senderId | e]; simpl in *; [| exact Hadded].
  destruct (get (Some msg) "content") as [content | e]; simpl in *; [| exact Hadded].
  destruct (sink (emitted (trace w)) _) as [e |]; simpl in *; exact Hadded.
Qed.

Lemma process_message_settled sink api chat msg w id :
  get (Some msg) "id" = Normal id ->
  has (seenMessageIds w) id = true ->
  process_message sink api chat msg w = (Normal tt, w).
Proof.
  intros Hid Hseen. unfold process_message, bind, lift, seen_has, ret.
  rewrite Hid. simpl. rewrite Hseen. reflexivity.
Qed.

Lemma messages_settled sink api chat msgs w :
  settled_messages (seenMessageIds w) msgs ->
  for_of msgs (process_message sink api chat) w = (Normal tt, w).
Proof.
  induction 1 as [| msg msgs (id & Hid & Hseen) _ IH]; simpl; [reflexivity |].
  unfold bind. rewrite (process_message_settled sink api chat msg w id Hid Hseen).
  exact IH.
Qed.

Lemma settled_messages_later (w w' : World) (msgs : list json) :
  rtc loop_step w w' ->
  settled_messages (seenMessageIds w) msgs ->
  settled_messages (seenMessageIds w') msgs.
Proof.
  intros Hsteps Hall. unfold settled_messages. eapply Forall_impl; [exact Hall |].
  intros msg (id & Hid & Hseen). exists id. split; [exact Hid |].
  apply (loop_steps_settled id w w' Hsteps Hseen).
Qed.

Lemma messages_settle sink api chat msgs w :
  fst (for_of msgs (process_message sink api chat) w) = Normal tt ->
  Forall (fun msg => is_primitive (get_opt (Some msg) "id") = true) msgs ->
  settled_messages (seenMessageIds (snd (for_of msgs (process_message sink api chat) w)))
    msgs.
Proof.
  revert w. induction msgs as [| msg msgs IH]; intros w Hnormal Hprim; simpl.
  - constructor.
  - inversion Hprim as [| ? ? Hp Hps]; subst.
    simpl in Hnormal. unfold bind in *.
    pose proof (process_message_settles sink api chat msg w) as Hfirst.
    destruct (process_message sink api chat msg w) as [[[] | e] w1]; simpl in *;
      [| discriminate].
    destruct (Hfirst eq_refl Hp) as (id & Hid & Hseen).
    pose proof (loop_steps_for_of msgs (process_message sink api chat)
                  (process_message_steps sink api chat) w1) as Hsteps.
    constructor.
    + exists id. split; [exact Hid |].
      apply (loop_steps_settled id _ _ Hsteps Hseen).
    + apply IH; assumption.
Qed.

Lemma chat_settled sink api chat w :
  settled_chat (seenMessageIds w) chat ->
  process_chat sink api chat w = (Normal tt, w).
Proof.
  intros (messages & Hget & Hcase). unfold process_chat, bind, lift. rewrite Hget. simpl.
  destruct Hcase as [Hno | (msgs & Hiter & Hmsgs)].
  - rewrite Hno. reflexivity.
  - destruct (truthy messages); [| reflexivity].
    rewrite Hiter. simpl. apply messages_settled, Hmsgs.
Qed.

Lemma settled_chat_later (w w' : World) (chat : json) :
  rtc loop_step w w' ->
  settled_chat (seenMessageIds w) chat -> settled_chat (seenMessageIds w') chat.
Proof.
  intros Hsteps (messages & Hget & Hcase). exists messages. split; [exact Hget |].
  destruct Hcase as [Hno | (msgs & Hiter & Hmsgs)]; [left; exact Hno |].
  right. exists msgs. split; [exact Hiter |].
  apply (settled_messages_later w w' msgs Hsteps Hmsgs).
Qed.

Lemma chat_settles sink api chat w :
  fst (process_chat sink api chat w) = Normal tt ->
  Forall (fun id => is_primitive id = true) (chat_message_ids chat) ->
  settled_chat (seenMessageIds (snd (process_chat sink api chat w))) chat.
Proof.
  intros Hnormal Hprim. unfold process_chat, bind, lift in *.
  destruct (get (Some chat) "messages") as [messages | e] eqn:Hget; simpl in *;
    [| discriminate].
  exists messages. split; [exact Hget |].
  destruct (truthy messages) eqn:Htruthy; [| left; reflexivity].
  right. unfold chat_message_ids in Hprim.
  rewrite <- (get_get_opt _ _ _ Hget) in Hprim.
  destruct (iterate "chat.messages" messages) as [msgs | e] eqn:Hiter; simpl in *; [| discriminate].
  exists msgs. split; [reflexivity |].
  apply messages_settle; [exact Hnormal |].
  apply Forall_map in Hprim. exact Hprim.
Qed.

Lemma chats_settled sink api chats w :
  Forall (settled_chat (seenMessageIds w)) chats ->
  for_of chats (process_chat sink api) w = (Normal tt, w).
Proof.
  induction 1 as [| chat chats Hchat _ IH]; simpl; [reflexivity |].
  unfold bind. rewrite (chat_settled sink api chat w Hchat). exact IH.
Qed.

Lemma chats_settle sink api chats w :
  fst (for_of chats (process_chat sink api) w) = Normal tt ->
  Forall (fun id => is_primitive id = true) (flat_map chat_message_ids chats) ->
  Forall (settled_chat (seenMessageIds (snd (for_of chats (process_chat sink api) w))))
    chats.
Proof.
  revert w. induction chats as [| chat chats IH]; intros w Hnormal Hprim; simpl.
  - constructor.
  - simpl in Hprim. apply Forall_app in Hprim as [Hp Hps].
    simpl in Hnormal. unfold bind in *.
    pose proof (chat_settles sink api chat w) as Hfirst.
    destruct (process_chat sink api chat w) as [[[] | e] w1]; simpl in *;
      [| discriminate].
    pose proof (loop_steps_for_of chats (process_chat sink api)
                  (process_chat_steps sink api) w1) as Hsteps.
    constructor.
    + apply (settled_chat_later w1 _ chat Hsteps). apply Hfirst; [reflexivity | exact Hp].
    + apply IH; assumption.
Qed.

Lemma snapshot_settles sink api data w w2 :
  fst (process_snapshot sink api data w) = Normal tt ->
  Forall (fun id => is_primitive id = true) (snapshot_message_ids data) ->
  seenMessageIds w2 = seenMessageIds (snd (process_snapshot sink api data w)) ->
  process_snapshot sink api data w2 = (Normal tt, w2).
Proof.
  unfold process_snapshot, snapshot_message_ids, bind, lift.
  destruct (truthy (snapshot_chats data)); [| reflexivity].
  destruct (iterate "data.result.data.chats" (snapshot_chats data)) as [chats | e]; simpl;
    [| discriminate].
  intros Hnormal Hprim Hseen. apply chats_settled. rewrite Hseen.
  apply chats_settle; assumption.
Qed.

Lemma poll_decoded sink api config authSession status statusText data w :
  let req := build_request config authSession "/api/trpc/loader.chatPanelData"
               no_options in
  poll_body sink api config authSession (Response true status statusText (Normal data)) w =
  process_snapshot sink api data (snd (perform (FetchCall req) w)).
Proof. reflexivity. Qed.

(** X12.  When a cycle has processed a snapshot to the end without a
    failure, and the message ids of the snapshot are primitive values
    (strings, as declared), a further cycle that fetches the same
    snapshot is its request and nothing else: no id is added, no event
    is emitted, nothing is logged. *)
Theorem repeated_snapshot sink api config authSession status statusText data w :
  let answer := Response true status statusText (Normal data) in
  let w1 := snd (poll sink api config authSession answer w) in
  fst (poll_body sink api config authSession answer w) = Normal tt ->
  Forall (fun id => is_primitive id = true) (snapshot_message_ids data) ->
  poll sink api config authSession answer w1 =
  (Normal tt,
   {| seenMessageIds := seenMessageIds w1; context := context w1; timers := timers w1;
      trace := trace w1 ++
        [FetchCall (build_request config authSession "/api/trpc/loader.chatPanelData"
                      no_options)] |}).
Proof.
  intros answer w1 Hnormal Hprim.
  assert (Hw1 : w1 = snd (poll_body sink api config authSession answer w)).
  { subst w1. unfold poll, try_catch.
    destruct (poll_body sink api config authSession answer w) as [[[] | e] w1];
      [reflexivity | discriminate]. }
  clearbody w1. subst w1 answer. rewrite poll_decoded in *.
  set (req := build_request config authSession "/api/trpc/loader.chatPanelData"
                no_options) in *.
  set (wf := snd (perform (FetchCall req) w)) in *.
  set (w1 := snd (process_snapshot sink api data wf)).
  unfold poll, try_catch. rewrite poll_decoded. fold req.
  rewrite (snapshot_settles sink api data wf (snd (perform (FetchCall req) w1))
             Hnormal Hprim eq_refl).
  reflexivity.
Qed.

Lemma repeated_snapshot_witness :
  let data := sample_snapshot "direct" [sample_message "m1"; sample_message "m2"] in
  let answer := Response true 200 "OK" (Normal data) in
  let w1 := snd (poll quiet_sink sample_api sample_config "tok" answer empty_world) in
  poll quiet_sink sample_api sample_config "tok" answer w1 =
  (Normal tt,
   {| seenMessageIds := seenMessageIds w1; context := context w1; timers := timers w1;
      trace := trace w1 ++
        [FetchCall (build_request sample_config "tok" "/api/trpc/loader.chatPanelData"
                      no_options)] |}).
Proof.
  intros data.
  apply (repeated_snapshot quiet_sink sample_api sample_config "tok" 200 "OK" data
           empty_world).
  - reflexivity.
  - repeat constructor.
Defined.

(** ** A cycle on a snapshot of the declared shape *)

Lemma get_object (members : list (string * json)) (key : string) :
  get (Some (JObj members)) key = Normal (get_opt (Some (JObj members)) key).
Proof. reflexivity. Qed.

Lemma world_eq (w w' : World) :
  seenMessageIds w = seenMessageIds w' -> context w = context w' ->
  timers w = timers w' -> trace w = trace w' -> w = w'.
Proof. destruct w, w'; simpl; intros -> -> -> ->; reflexivity. Qed.

Lemma process_message_follows sink api chat_members msg w0 st w :
  (forall history ev, sink history ev = None) ->
  declared_message msg ->
  follows w0 st w ->
  let w' := snd (process_message sink api (JObj chat_members) msg w) in
  fst (process_message sink api (JObj chat_members) msg w) = Normal tt /\
  follows w0 (spec_message (botUserId api) (JObj chat_members) msg st) w'.
Proof.
  intros Hquiet (members & -> & Hdecl) (Hseen & Hc & Ht & Htrace) w'. subst w'.
  destruct (includes_opt_declared _ (botUserId api) Hdecl) as (b & Hinc & _).
  change (own_property members "mentions")
    with (get_opt (Some (JObj members)) "mentions") in Hinc.
  unfold process_message, spec_message, bind, lift, seen_has, seen_add, api_emit, ret.
  rewrite !get_object. simpl. rewrite Hinc, Hseen.
  destruct (has (fst st) (get_opt (Some (JObj members)) "id")) eqn:Hhas; simpl.
  - split; [reflexivity |]. repeat split; assumption.
  - rewrite Hseen, Hhas.
    destruct (is_direct (get_opt (Some (JObj chat_members)) "type") || b); simpl.
    + rewrite Hquiet. simpl. split; [reflexivity |].
      repeat split; simpl; try assumption.
      rewrite Htrace, map_app, app_assoc. reflexivity.
    + split; [reflexivity |]. repeat split; assumption.
Qed.

Lemma messages_follow sink api chat_members msgs w0 st w :
  (forall history ev, sink history ev = None) ->
  Forall declared_message msgs ->
  follows w0 st w ->
  let run := for_of msgs (process_message sink api (JObj chat_members)) w in
  fst run = Normal tt /\
  follows w0
    (fold_left (fun st msg => spec_message (botUserId api) (JObj chat_members) msg st)
       msgs st)
    (snd run).
Proof.
  intros Hquiet Hdecl. revert st w.
  induction Hdecl as [| msg msgs Hmsg _ IH]; intros st w Hfollows; simpl.
  - split; [reflexivity | exact Hfollows].
  - unfold bind.
    destruct (process_message_follows sink api chat_members msg w0 st w
                Hquiet Hmsg Hfollows) as [Hn Hf].
    destruct (process_message sink api (JObj chat_members) msg w) as [[[] | e] w1];
      simpl in *; [| discriminate].
    apply IH, Hf.
Qed.

Lemma chats_follow sink api chats w0 st w :
  (forall history ev, sink history ev = None) ->
  Forall declared_chat chats ->
  follows w0 st w ->
  let run := for_of chats (process_chat sink api) w in
  fst run = Normal tt /\
  follows w0 (fold_left (spec_chat (botUserId api)) chats st) (snd run).
Proof.
  intros Hquiet Hdecl. revert st w.
  induction Hdecl as [| chat chats (members & msgs & -> & Hmsgs & Hall) _ IH];
    intros st w Hfollows; simpl.
  - split; [reflexivity | exact Hfollows].
  - unfold bind.
    assert (Hchat :
      let run := process_chat sink api (JObj members) w in
      fst run = Normal tt /\
      follows w0 (spec_chat (botUserId api) st (JObj members)) (snd run)).
    { unfold process_chat, spec_chat, bind, lift. rewrite get_object.
      change (get_opt (Some (JObj members)) "messages")
        with (own_property members "messages").
      rewrite Hmsgs. simpl.
      apply (messages_follow sink api members msgs w0 st w Hquiet Hall Hfollows). }
    destruct Hchat as [Hn Hf].
    destruct (process_chat sink api (JObj members) w) as [[[] | e] w1];
      simpl in *; [| discriminate].
    apply IH, Hf.
Qed.

(** X13.  On a snapshot of the declared shape and with an event sink
    that does not throw, a cycle does exactly what the specification's
    pure description says: it never fails, the seen-set becomes the one
    the description computes, and after its request it emits the
    description's events, in snapshot order, and nothing else. *)
Theorem cycle_refines_spec sink api config authSession status statusText data w :
  (forall history ev, sink history ev = None) ->
  declared_snapshot data ->
  let req := build_request config authSession "/api/trpc/loader.chatPanelData"
               no_options in
  let result := spec_snapshot (botUserId api) data (seenMessageIds w) in
  poll sink api config authSession (Response true status statusText (Normal data)) w =
  (Normal tt,
   {| seenMessageIds := fst result; context := context w; timers := timers w;
      trace := trace w ++ FetchCall req :: map ApiEmit (snd result) |}).
Proof.
  intros Hquiet (chats & Hchats & Hdecl) req result.
  unfold poll, try_catch. rewrite poll_decoded. fold req.
  set (wf := snd (perform (FetchCall req) w)).
  assert (Hstart : follows wf (seenMessageIds w, []) wf).
  { repeat split. simpl. rewrite app_nil_r. reflexivity. }
  destruct (chats_follow sink api chats wf _ wf Hquiet Hdecl Hstart) as [Hn Hf].
  unfold process_snapshot, bind, lift. subst result. unfold spec_snapshot.
  rewrite Hchats. simpl.
  destruct (for_of chats (process_chat sink api) wf) as [[[] | e] w1];
    simpl in *; [| discriminate].
  f_equal. destruct Hf as (Hs & Hc & Ht & Htr).
  apply world_eq; simpl; try assumption.
  rewrite Htr. simpl. rewrite <- app_assoc. reflexivity.
Qed.

(** ** Starting, stopping and restarting *)



(** X15.  A [stop] after a successful [start] returns normally, cancels
    exactly the timer that [start] armed, leaving every other timer as
    it was before the start, and removes the stored handle. *)
Theorem start_then_stop homedir fs sink api config h first raw w :
  channels_sup_chat api = Some config ->
  enabled config = Some true ->
  fs (expand_home homedir (authSessionPath config)) = File raw ->
  trim raw <> "" ->
  let started := snd (start homedir fs sink api h first w) in
  let stopped := snd (stop started) in
  fst (stop started) = Normal tt /\
(h ∉ timers stopped) /\
  (forall other, other <> h -> (other ∈ timers stopped <-> other ∈ timers w)) /\
  context stopped = delete interval_key (context w) /\
  seenMessageIds stopped = seenMessageIds started /\
  trace stopped = trace started ++
    [ClearInterval h; ContextDelete interval_key; LoggerInfo "[sup-chat] Gateway stopped"].
Proof.
  intros Hcfg Hen Hfs Hne started stopped. subst stopped started.
  rewrite (start_enabled homedir fs sink api config h first raw w Hcfg Hen Hfs Hne).
  simpl.
  match goal with
  | |- context [poll sink api config (trim raw) first ?armed] =>
      destruct (poll_frame sink api config (trim raw) first armed)
        as (Hc & Ht & _ & _);
      set (polled := snd (poll sink api config (trim raw) first armed)) in *
  end.
  simpl in Hc, Ht.
  unfold stop, bind, context_get, clear_interval, context_delete, logger_info, perform.
  simpl. rewrite lookup_insert_eq. simpl.
  split; [reflexivity |]. rewrite Ht, Hc.
  split.
  { intros Hin. apply elem_of_difference in Hin as [_ Hn].
    apply Hn, elem_of_singleton. reflexivity. }
  split.
  { intros other Hother.
    rewrite elem_of_difference, elem_of_union, !elem_of_singleton. tauto. }
  split; [apply delete_insert_eq |]. split; [reflexivity |].
  rewrite <- !app_assoc. reflexivity.
Qed.

(** X16.  A second [start] without a [stop] in between arms a second
    timer and overwrites the stored handle: the next [stop] cancels only
    the second timer, and the first one stays armed with no handle left
    to cancel it. *)
Theorem second_start_orphans_timer homedir fs sink api config h1 h2 first second raw w :
  channels_sup_chat api = Some config ->
  enabled config = Some true ->
  fs (expand_home homedir (authSessionPath config)) = File raw ->
  trim raw <> "" ->
  h1 <> h2 ->
  let w1 := snd (start homedir fs sink api h1 first w) in
  let w2 := snd (start homedir fs sink api h2 second w1) in
  let w3 := snd (stop w2) in
  context w2 !! interval_key = Some h2 /\
  h1 ∈ timers w2 /\ h2 ∈ timers w2 /\
  h1 ∈ timers w3 /\ (h2 ∉ timers w3) /\
  context w3 !! interval_key = None.
Proof.
  intros Hcfg Hen Hfs Hne Hh w1 w2 w3.
  assert (Hstarted : forall h answer w0,
            let w' := snd (start homedir fs sink api h answer w0) in
            timers w' = {[h]} ∪ timers w0 /\
            context w' = <[interval_key := h]> (context w0)).
  { intros h answer w0.
    rewrite (start_enabled homedir fs sink api config h answer raw w0 Hcfg Hen Hfs Hne).
    simpl.
    match goal with
    | |- context [poll sink api config (trim raw) answer ?armed] =>
        destruct (poll_frame sink api config (trim raw) answer armed)
          as (Hc & Ht & _ & _)
    end.
    simpl in Hc, Ht. rewrite Hc, Ht. auto. }
  destruct (Hstarted h1 first w) as [Ht1 Hc1]. fold w1 in Ht1, Hc1.
  destruct (Hstarted h2 second w1) as [Ht2 Hc2]. fold w2 in Ht2, Hc2.
  assert (Hstop : timers w3 = timers w2 ∖ {[h2]} /\
                  context w3 = delete interval_key (context w2)).
  { subst w3. unfold stop, bind, context_get, clear_interval, context_delete,
      logger_info, perform. simpl. rewrite Hc2, lookup_insert_eq. simpl.
    rewrite Hc2. auto. }
  destruct Hstop as [Ht3 Hc3].
  rewrite Ht3, Hc3, Hc2, Ht2, Ht1.
  split; [apply lookup_insert_eq |].
  rewrite !elem_of_difference, !elem_of_union, !elem_of_singleton.
  split; [tauto |]. split; [tauto |]. split; [split; [tauto | exact Hh] |].
  split; [tauto |]. apply lookup_delete_eq.
Qed.

(** ** The outbound path, call by call *)

Lemma sendText_unconfigured homedir fs api ctx now suffix answer w :
  channels_sup_chat api = None ->
  sendText homedir fs api ctx now suffix answer w =
  (Normal (SendFailed "Sup chat not configured"), w).
Proof. intros Hcfg. unfold sendText, try_catch. rewrite Hcfg. reflexivity. Qed.

Lemma sendText_unloadable homedir fs api config ctx now suffix answer w :
  channels_sup_chat api = Some config ->
  ~ credential_ok homedir fs (authSessionPath config) ->
  let shown := expand_home homedir (authSessionPath config) in
  let reason :=
    "Failed to load auth session: " +:+
    match fs shown with
    | Missing => "Auth session file not found: " +:+ shown
    | Unreadable e => message e
    | File _ => "Auth session file is empty: " +:+ shown
    end in
  sendText homedir fs api ctx now suffix answer w =
  (Normal (SendFailed reason),
   {| seenMessageIds := seenMessageIds w; context := context w; timers := timers w;
      trace := trace w ++
        ExistsSync shown ::
        match fs shown with
        | Missing => []
        | _ => [ReadFileSync shown]
        end ++ [LoggerError ("[sup-chat] Failed to send message: " +:+ reason)] |}).
Proof.
  intros Hcfg Hno shown reason. unfold sendText, try_catch. rewrite Hcfg.
  unfold bind at 1. rewrite (loadAuthSession_throws homedir fs _ _ Hno). fold shown.
  unfold bind, logger_error, perform, ret. simpl. fold reason.
  rewrite <- !app_assoc. reflexivity.
Qed.

Lemma sendText_requested homedir fs api config ctx now suffix answer raw w :
  channels_sup_chat api = Some config ->
  fs (expand_home homedir (authSessionPath config)) = File raw ->
  trim raw <> "" ->
  let shown := expand_home homedir (authSessionPath config) in
  let req := build_request config (trim raw) "/api/trpc/chatMessage.create"
               (send_options (ctx_chatId ctx) (ctx_text ctx) [] now suffix) in
  let failed e :=
    (SendFailed (message e),
     LoggerError ("[sup-chat] Failed to send message: " +:+ message e)) in
  let outcome :=
    match answer with
    | NetworkFailure e => failed e
    | Response false status statusText _ =>
        failed (Error ("API request failed: " +:+ pretty status +:+ " " +:+ statusText))
    | Response true _ _ (Throw e) => failed e
    | Response true _ _ (Normal _) =>
        (SendOk, LoggerInfo ("[sup-chat] Sent message to chat " +:+ ctx_chatId ctx))
    end in
  sendText homedir fs api ctx now suffix answer w =
  (Normal (fst outcome),
   {| seenMessageIds := seenMessageIds w; context := context w; timers := timers w;
      trace := trace w ++
        [ExistsSync shown; ReadFileSync shown; FetchCall req; snd outcome] |}).
Proof.
  intros Hcfg Hfs Hne shown req failed outcome. subst outcome failed.
  unfold sendText, try_catch. rewrite Hcfg.
  unfold bind at 1. rewrite (loadAuthSession_ok homedir fs _ raw w Hfs Hne).
  fold shown.
  unfold sendChatMessage, makeSupRequest, bind, logger_info, logger_error, perform,
    throw, lift, ret. fold req.
  destruct answer as [e | [] status statusText [data | e]]; simpl;
    rewrite <- !app_assoc; reflexivity.
Qed.

Lemma credential_decidable homedir fs path :
  credential_ok homedir fs path \/ ~ credential_ok homedir fs path.
Proof.
  destruct (loadAuthSession_cases homedir fs path empty_world) as [[H _] | [H _]]; auto.
Qed.

(** X17.  [sendText] never reads or changes the seen-set, the host
    context or the timers and never emits an event, whatever it is
    given.  Without a configuration block it has no effect at all (not
    even a log line); with a credential that cannot be loaded it issues
    no request. *)
Theorem sendText_leaves_loop_alone homedir fs api ctx now suffix answer w :
  let w' := snd (sendText homedir fs api ctx now suffix answer w) in
  seenMessageIds w' = seenMessageIds w /\
  context w' = context w /\
  timers w' = timers w /\
  emitted (trace w') = emitted (trace w) /\
  (channels_sup_chat api = None -> w' = w) /\
  (forall config, channels_sup_chat api = Some config ->
                  ~ credential_ok homedir fs (authSessionPath config) ->
                  fetched (trace w') = fetched (trace w)).
Proof.
  intros w'. subst w'.
  destruct (channels_sup_chat api) as [config |] eqn:Hcfg.
  2: { rewrite (sendText_unconfigured homedir fs api ctx now suffix answer w Hcfg).
       simpl. repeat split; auto; try (intros; discriminate). }
  destruct (credential_decidable homedir fs (authSessionPath config))
    as [(raw & Hfs & Hne) | Hno].
  - rewrite (sendText_requested homedir fs api config ctx now suffix answer raw w
               Hcfg Hfs Hne). simpl.
    repeat split; try discriminate.
    + rewrite emitted_app.
      destruct answer as [e | [] status statusText [data | e]]; simpl;
        apply app_nil_r.
    + intros config' [= <-] Hno. exfalso. apply Hno. exists raw. auto.
  - rewrite (sendText_unloadable homedir fs api config ctx now suffix answer w Hcfg Hno).
    simpl. repeat split; try discriminate.
    + rewrite emitted_app. simpl. rewrite emitted_app.
      destruct (fs _); simpl; apply app_nil_r.
    + intros config' _ _. rewrite fetched_app. simpl. rewrite fetched_app.
      destruct (fs _); simpl; apply app_nil_r.
Qed.

(** X18.  With a configuration block, the last thing [sendText] does is
    log its own result: the information line for a sent message when it
    returns [{ok: true}], and otherwise an error line carrying exactly
    the error text it returns. *)
Theorem sendText_logs_its_result homedir fs api config ctx now suffix answer w :
  channels_sup_chat api = Some config ->
  let w' := snd (sendText homedir fs api ctx now suffix answer w) in
  match fst (sendText homedir fs api ctx now suffix answer w) with
  | Normal SendOk =>
      last (trace w') =
        Some (LoggerInfo ("[sup-chat] Sent message to chat " +:+ ctx_chatId ctx))
  | Normal (SendFailed error) =>
      last (trace w') = Some (LoggerError ("[sup-chat] Failed to send message: " +:+ error))
  | Throw _ => False
  end.
Proof.
  intros Hcfg w'. subst w'.
  destruct (credential_decidable homedir fs (authSessionPath config))
    as [(raw & Hfs & Hne) | Hno].
  - rewrite (sendText_requested homedir fs api config ctx now suffix answer raw w
               Hcfg Hfs Hne).
    destruct answer as [e | [] status statusText [data | e]]; simpl;
      match goal with
      | |- last (?t ++ [?a; ?b; ?c; ?d]) = _ =>
          change (t ++ [a; b; c; d]) with (t ++ [a; b; c] ++ [d]);
          rewrite app_assoc; apply last_snoc
      end.
  - rewrite (sendText_unloadable homedir fs api config ctx now suffix answer w Hcfg Hno).
    simpl. rewrite !app_comm_cons, app_assoc. apply last_snoc.
Qed.

(** X19.  With a configuration block and a loadable credential,
    [sendText] reads the credential file afresh, then issues exactly
    one request and logs once.  The request goes to the message-creation
    endpoint with the freshly loaded token as cookie, and its body
    carries the chat id and the text of the context and an empty list of
    mentions. *)
Theorem sendText_request homedir fs api config ctx now suffix answer raw w :
  channels_sup_chat api = Some config ->
  fs (expand_home homedir (authSessionPath config)) = File raw ->
  trim raw <> "" ->
  let w' := snd (sendText homedir fs api ctx now suffix answer w) in
  let shown := expand_home homedir (authSessionPath config) in
  exists req payload logged,
    trace w' = trace w ++ [ExistsSync shown; ReadFileSync shown; FetchCall req; logged] /\
    (exists line, logged = LoggerInfo line \/ logged = LoggerError line) /\
    url req = baseUrl config +:+ "/api/trpc/chatMessage.create" /\
    headers (init req) !! "Cookie" = Some ("auth_session=" +:+ trim raw) /\
    body (init req) = Some payload /\
    get_opt (get_opt (Some payload) "json") "chatId" = Some (JStr (ctx_chatId ctx)) /\
    get_opt (get_opt (Some payload) "json") "content" = Some (JStr (ctx_text ctx)) /\
    get_opt (get_opt (Some payload) "json") "mentions" = Some (JArr []).
Proof.
  intros Hcfg Hfs Hne w' shown. subst w'.
  rewrite (sendText_requested homedir fs api config ctx now suffix answer raw w
             Hcfg Hfs Hne). simpl. fold shown.
  eexists _, _, _. split; [reflexivity |].
  split.
  { destruct answer as [e | [] status statusText [data | e]]; simpl; eauto. }
  split; [reflexivity |].
  split; [| repeat split].
  simpl. unfold request_headers, spread, send_options. simpl.
  rewrite !lookup_union, !optional_header_lookup, lookup_empty.
  repeat (case_decide; [discriminate |]).
  rewrite lookup_insert_ne by discriminate. rewrite lookup_insert_eq. reflexivity.
Qed.

(** ** Closed instances *)

Lemma cycle_refines_spec_witness :
  let data := sample_snapshot "direct"
                [sample_message "m1"; sample_message "m1"; sample_message "m2"] in
  let result := spec_snapshot (botUserId sample_api) data (seenMessageIds empty_world) in
  map ev_messageId (snd result) = [Some (JStr "m1"); Some (JStr "m2")] /\
  poll quiet_sink sample_api sample_config "tok" (Response true 200 "OK" (Normal data))
    empty_world =
  (Normal tt,
   {| seenMessageIds := fst result; context := context empty_world;
      timers := timers empty_world;
      trace := trace empty_world ++
        FetchCall (build_request sample_config "tok" "/api/trpc/loader.chatPanelData"
                     no_options) :: map ApiEmit (snd result) |}).
Proof.
  intros data. split; [reflexivity |].
  apply (cycle_refines_spec quiet_sink sample_api sample_config "tok" 200 "OK" data
           empty_world).
  - intros history ev. reflexivity.
  - eexists. split; [reflexivity |].
    constructor; [| constructor].
    eexists _, _. split; [reflexivity |]. split; [reflexivity |].
    constructor; [| constructor; [| constructor; [| constructor]]];
      (eexists; split; [reflexivity | exact I]).
Defined.


Lemma start_then_stop_witness :
  let started := snd (start "/home/claw" sample_fs quiet_sink sample_api 7%positive
                        (ok_answer (sample_snapshot "direct" [sample_message "m1"]))
                        empty_world) in
  let stopped := snd (stop started) in
  fst (stop started) = Normal tt /\ (7%positive ∉ timers stopped).
Proof.
  intros started stopped.
  destruct (start_then_stop "/home/claw" sample_fs quiet_sink sample_api sample_config
              7%positive (ok_answer (sample_snapshot "direct" [sample_message "m1"]))
              "tok" empty_world) as (Hn & Hh & _).
  - reflexivity.
  - reflexivity.
  - reflexivity.
  - discriminate.
  - split; [exact Hn | exact Hh].
Defined.

Lemma second_start_orphans_timer_witness :
  let a := ok_answer (sample_snapshot "direct" [sample_message "m1"]) in
  let w1 := snd (start "/home/claw" sample_fs quiet_sink sample_api 7%positive a
                   empty_world) in
  let w2 := snd (start "/home/claw" sample_fs quiet_sink sample_api 8%positive a w1) in
  let w3 := snd (stop w2) in
  7%positive ∈ timers w3 /\ context w3 !! interval_key = None.
Proof.
  intros a w1 w2 w3.
  destruct (second_start_orphans_timer "/home/claw" sample_fs quiet_sink sample_api
              sample_config 7%positive 8%positive a a "tok" empty_world)
    as (_ & _ & _ & Hleft & _ & Hnone).
  - reflexivity.
  - reflexivity.
  - reflexivity.
  - discriminate.
  - discriminate.
  - split; [exact Hleft | exact Hnone].
Defined.

Lemma sendText_logs_its_result_witness :
  let ctx := {| ctx_chatId := "c1"; ctx_senderId := "bot"; ctx_text := "hello";
                ctx_messageId := None |} in
  let answer := Response false 500 "Internal Server Error" (Normal JNull) in
  let w' := snd (sendText "/home/claw" sample_fs sample_api ctx "1700000000000"
                   "k3j9x0q1z" answer empty_world) in
  match fst (sendText "/home/claw" sample_fs sample_api ctx "1700000000000"
               "k3j9x0q1z" answer empty_world) with
  | Normal SendOk =>
      last (trace w') = Some (LoggerInfo ("[sup-chat] Sent message to chat " +:+ "c1"))
  | Normal (SendFailed error) =>
      last (trace w') = Some (LoggerError ("[sup-chat] Failed to send message: " +:+ error))
  | Throw _ => False
  end.
Proof.
  intros ctx answer.
  apply (sendText_logs_its_result "/home/claw" sample_fs sample_api sample_config ctx
           "1700000000000" "k3j9x0q1z" answer empty_world).
  reflexivity.
Defined.

Lemma sendText_request_witness :
  let ctx := {| ctx_chatId := "c1"; ctx_senderId := "bot"; ctx_text := "hello";
                ctx_messageId := None |} in
  let w' := snd (sendText "/home/claw" padded_fs sample_api ctx "1700000000000"
                   "k3j9x0q1z" (ok_answer JNull) empty_world) in
  exists req,
    fetched (trace w') = [req] /\
    headers (init req) !! "Cookie" = Some "auth_session=tok".
Proof.
  intros ctx w'.
  destruct (sendText_request "/home/claw" padded_fs sample_api sample_config ctx
              "1700000000000" "k3j9x0q1z" (ok_answer JNull)
              padded_content empty_world)
    as (req & payload & logged & Htrace & (line & Hlogged) & _ & Hcookie & _).
  - reflexivity.
  - reflexivity.
  - discriminate.
  - exists req. split; [| exact Hcookie].
    subst w'. rewrite Htrace. destruct Hlogged as [-> | ->]; reflexivity.
Defined.

(** ** How many events an id gets *)












(** ** A run of cycles on snapshots of the declared shape *)




(** ** Where an id is first met *)





(** ** Deduplication across cycles *)




(** Relevance is judged where the id is first met: a message met in a
    group chat without a mention of the configured identity gets no
    event, also when a later snapshot shows it with the mention. *)
Example relevance_is_judged_once :
  let plain := sample_message "m1" in
  let mentioning :=
    JObj [("id", JStr "m1"); ("senderId", JStr "u1"); ("content", JStr "hi");
          ("mentions", JArr [JStr "bot"])] in
  let first := ok_answer (sample_snapshot "group" [plain]) in
  let second := ok_answer (sample_snapshot "group" [mentioning]) in
  events_for (Some (JStr "m1"))
    (trace (cycles quiet_sink sample_api sample_config "tok" [first; second] empty_world))
    = [] /\
  length (events_for (Some (JStr "m1"))
            (trace (cycles quiet_sink sample_api sample_config "tok" [second; first]
                      empty_world))) = 1.
Proof. vm_compute. split; reflexivity. Qed.
